(** * TToolbox: command dispatch, cooldowns, permissions, modals, pagination

    A shallow embedding of the invocation pipeline of the TToolbox Discord
    framework and of its interactive-state registries, with the properties
    its specification states about them.

    Conventions.
    - A JavaScript [Map<string, V>] is a [gmap string V].
    - Timestamps and durations are whole milliseconds, in [Z]; the reading of
      [Date.now()] is an explicit argument (or a field of the world state).
    - Code that can throw returns an [outcome]; code with effects threads a
      [World] through. *)

From stdpp Require Import gmap strings list fin_maps pretty.
From Stdlib Require Import ZArith Lia.

(** * Exceptions and results *)

(** [InteractionError.reason] (classes/InteractionError.class) *)
Inductive Reason := expired | failed.

(** The exceptions the code raises or lets through: [new Error(message)],
    the [RangeError] and [TypeError] of the runtime and of discord.js, and
    the repository's [InteractionError(message, interactionId, reason)].
    Every value of this type is an error object, with a [message]. JavaScript
    lets a handler throw anything, [null] and [undefined] included; such
    values are not in this type, and what the [catch] blocks do with them
    (reading [err.message] of [null] or [undefined] throws in turn) is not
    covered by what follows. *)
Inductive exn :=
| Error (message : string)
| RangeError (message : string)
| TypeError (message : string)
| InteractionError (message interactionId : string) (reason : Reason).

(** What a call that can throw ends with. *)
Inductive outcome (A : Type) :=
| Returns (a : A)
| Throws (e : exn).
Arguments Returns {A} a.
Arguments Throws {A} e.

Definition returned {A} (o : outcome A) : bool :=
  match o with Returns _ => true | Throws _ => false end.

(** * Part I: the model *)

(** * Cooldown tracker (utils/cooldown) *)

Module Cooldown.


(** [Map<commandName, Map<userId, canBeUsedAgainAt>>] *)
Abbreviation Tracker := (gmap string (gmap string Z)).

(** JavaScript truthiness of a number that is an integer: only [0] is falsy. *)
Definition truthy (x : Z) : bool := negb (x =? 0)%Z.

(** The clean-up loop: [for (const [id, expiry] of cooldownMap)
    if (expiry <= now) cooldownMap.delete(id)]. Deleting the entry under the
    cursor of a [Map] iteration is safe in JavaScript, so the loop visits
    every entry and keeps exactly those with [expiry > now]. *)
Definition sweep (now : Z) (cooldownMap : gmap string Z) : gmap string Z :=
  filter (λ p, ¬ (p.2 ≤ now)%Z) cooldownMap.

(** [checkCooldown(commandName, commandCooldown, userId)]; returns the wait
    and the tracker after the call. [commandCooldown] is [None] for
    [undefined]; [!commandCooldown] also holds for [0]. *)
Definition checkCooldown (commandName : string) (commandCooldown : option Z)
    (userId : string) (now : Z) (tracker : Tracker) : Z * Tracker :=
  match commandCooldown with
  | None => (0%Z, tracker)
  | Some d =>
    if (d =? 0)%Z then (0%Z, tracker) else
    let cooldownMap := default ∅ (tracker !! commandName) in
    let swept := sweep now cooldownMap in
    match swept !! userId with
    | Some canBeUsedAgainAt =>
      if truthy canBeUsedAgainAt && (now <? canBeUsedAgainAt)%Z
      then ((canBeUsedAgainAt - now)%Z, <[commandName := swept]> tracker)
      else (0%Z, <[commandName := <[userId := (now + d)%Z]> swept]> tracker)
    | None => (0%Z, <[commandName := <[userId := (now + d)%Z]> swept]> tracker)
    end
  end.

(** The expiry recorded for a (command, user) pair, if any. *)
Definition entry (tracker : Tracker) (commandName userId : string) : option Z :=
  tracker !! commandName ≫= (λ m, m !! userId).

(** One invocation, as the tracker sees it. *)
Record call := Call { c_cmd : string; c_user : string; c_now : Z }.

(** [cd] gives the cooldown each command is configured with
    ([Command.cooldown]). *)
Definition step (cd : string → option Z) (tracker : Tracker) (k : call) : Tracker :=
  (checkCooldown (c_cmd k) (cd (c_cmd k)) (c_user k) (c_now k) tracker).2.

Definition run_calls (cd : string → option Z) (tracker : Tracker)
    (ks : list call) : Tracker :=
  foldl (step cd) tracker ks.

(** The trackers the process can be in: it starts empty, and every call reads
    a clock that does not run backwards and is not before the epoch. The
    index is the reading of the clock at the last call. *)
Inductive reachable (cd : string → option Z) : Z → Tracker → Prop :=
| reach_start : reachable cd 0 ∅
| reach_call t tracker k :
    reachable cd t tracker →
    (t ≤ c_now k)%Z →
    reachable cd (c_now k) (step cd tracker k).

(** The calls of [ks] made by somebody else, or on another command. *)
Definition others (commandName userId : string) (ks : list call) : Prop :=
  Forall (λ k, ¬ (c_cmd k = commandName ∧ c_user k = userId)) ks.

(** The scenario of the specification: command [slow] with a cooldown of
    5000 ms, users [U1] and [U2]. *)
Definition slow_cd (c : string) : option Z :=
  if String.eqb c "slow" then Some 5000%Z else None.

End Cooldown.

(** * Permission resolver (utils/permissions, types/permission) *)

Module Permissions.


(** A JavaScript [number], as far as [BigInt(n)] tells numbers apart: a
    number with an integral value converts to that value; a fractional
    number, [NaN] and the infinities make [BigInt] throw a [RangeError]. *)
Inductive jsnumber :=
| Integral (z : Z)
| NonIntegral.

(** [PermissionLevel]; [Flag] stands for [keyof typeof PermissionFlagsBits]. *)
Inductive PermissionLevel (Flag : Type) :=
| admin
| owner
| disabled
| user
| null
| undefined
| bigint (b : Z)
| number (n : jsnumber)
| flags (names : list Flag).
Arguments admin {Flag}.
Arguments owner {Flag}.
Arguments disabled {Flag}.
Arguments user {Flag}.
Arguments null {Flag}.
Arguments undefined {Flag}.
Arguments bigint {Flag} b.
Arguments number {Flag} n.
Arguments flags {Flag} names.

(** [BigInt(n)] for a number [n]. *)
Definition BigInt_of_number (n : jsnumber) : outcome Z :=
  match n with
  | Integral z => Returns z
  | NonIntegral =>
    Throws (RangeError "The number cannot be converted to a BigInt because it is not an integer")
  end.

(** What the slash-command builder keeps of a command. *)
Record Descriptor := {
  d_name : string;
  d_description : string;
  d_default_member_permissions : option Z;
}.

Section Resolver.
(** discord.js's table of permission flags is not part of the repository:
    the resolver is stated for any table. *)
Context {Flag : Type}.
Variable PermissionFlagsBits : Flag → Z.
Variable Administrator : Flag.

(** Modelled from the spec: [new PermissionsBitField(names).bitfield] is
    discord.js code; for a list of flag names it is the bitwise OR of the
    named flags, starting from the empty bit field. *)
Definition PermissionsBitField (names : list Flag) : Z :=
  foldl (λ acc name, Z.lor acc (PermissionFlagsBits name)) 0%Z names.

(** [getPermissionsForLevel(level)]; [None] is JavaScript's [null]. *)
Definition getPermissionsForLevel (level : PermissionLevel Flag)
    : outcome (option Z) :=
  match level with
  | admin => Returns (Some (PermissionFlagsBits Administrator))
  | owner | disabled => Returns (Some 0%Z)
  | bigint b => Returns (Some b)
  | number n =>
    match BigInt_of_number n with
    | Returns b => Returns (Some b)
    | Throws e => Throws e
    end
  | flags names => Returns (Some (PermissionsBitField names))
  | user | null | undefined => Returns None
  end.

(** [Command.toJSON()], without the caller's option customizations.
    Modelled from the spec: the slash-command builder is discord.js code; the
    descriptor it exports carries the name, the description and the default
    permission bitmask it was given, or none for null. *)
Definition toJSON (name description : string) (level : PermissionLevel Flag)
    : outcome Descriptor :=
  match getPermissionsForLevel level with
  | Returns bits =>
    Returns {| d_name := name; d_description := description;
               d_default_member_permissions := bits |}
  | Throws e => Throws e
  end.
End Resolver.

(** A sample of discord.js's table, for the examples. *)
Inductive SampleFlag := KickMembers | BanMembers | Administrator | ManageGuild.

Definition sampleBits (f : SampleFlag) : Z :=
  match f with
  | KickMembers => Z.shiftl 1 1
  | BanMembers => Z.shiftl 1 2
  | Administrator => Z.shiftl 1 3
  | ManageGuild => Z.shiftl 1 5
  end.

End Permissions.

(** * Modal registry (classes/ModalManager, types/modal) *)

Module ModalManager.


(** [TextInputStyle] *)
Inductive TextInputStyle := Short | Paragraph.

(** [ModalField] *)
Record ModalField := {
  f_name : string;
  f_style : TextInputStyle;
  f_customId : string;
  f_placeholder : option string;
  f_required : option bool;
  f_minLength : option Z;
  f_maxLength : option Z;
  f_value : option string;
}.

(** [Modal]. The submit handler is the caller's code: it returns or throws.
    It is given the custom id of the submission; it has no access to the
    registry, which is private to the manager. *)
Record Modal := {
  id : string;
  ephemeral : bool;
  title : string;
  fields : list ModalField;
  onSubmit : string → outcome unit;
}.

(** The text input built for a field; an optional setter is called only for
    a truthy value (a non-empty string, a non-zero length). *)
Record TextInput := {
  t_customId : string;
  t_label : string;
  t_style : TextInputStyle;
  t_required : bool;
  t_placeholder : option string;
  t_minLength : option Z;
  t_maxLength : option Z;
  t_value : option string;
}.

(** The dialog handed to the platform: one row per field. *)
Record ModalBuilder := {
  b_customId : string;
  b_title : string;
  b_rows : list TextInput;
}.

Definition truthy_string (o : option string) : option string :=
  match o with
  | Some s => if String.eqb s EmptyString then None else Some s
  | None => None
  end.

Definition truthy_length (o : option Z) : option Z :=
  match o with
  | Some n => if (n =? 0)%Z then None else Some n
  | None => None
  end.

Definition build_input (field : ModalField) : TextInput :=
  {| t_customId := f_customId field;
     t_label := f_name field;
     t_style := f_style field;
     t_required := default true (f_required field);
     t_placeholder := truthy_string (f_placeholder field);
     t_minLength := truthy_length (f_minLength field);
     t_maxLength := truthy_length (f_maxLength field);
     t_value := truthy_string (f_value field) |}.

(** [buildAndRegister(data)]: the dialog, and the registry with [data] stored
    under its id. *)
Definition buildAndRegister (data : Modal) (modals : gmap string Modal)
    : ModalBuilder * gmap string Modal :=
  ({| b_customId := id data; b_title := title data;
      b_rows := build_input <$> fields data |},
   <[id data := data]> modals).

(** The separator of dynamic ids, [':'] (code point 58). *)
Definition colon : Ascii.ascii := Ascii.ascii_of_nat 58.

(** [id.split(':')[0]]: the characters before the first colon. *)
Fixpoint baseId (s : string) : string :=
  match s with
  | EmptyString => EmptyString
  | String c rest => if Ascii.eqb c colon then EmptyString else String c (baseId rest)
  end.

(** [get(id)] *)
Definition get (modals : gmap string Modal) (customId : string) : option Modal :=
  match modals !! customId with
  | Some modal => Some modal
  | None => modals !! baseId customId
  end.

(** [remove(id)]: whether an entry was deleted, and the registry after. *)
Definition remove (customId : string) (modals : gmap string Modal)
    : bool * gmap string Modal :=
  (bool_decide (is_Some (modals !! customId)), delete customId modals).

(** [has(id)] *)
Definition has (modals : gmap string Modal) (customId : string) : bool :=
  bool_decide (is_Some (modals !! customId))
  || bool_decide (is_Some (modals !! baseId customId)).

(** [handleSubmit(interaction)], for a submission with the given custom id. *)
Definition handleSubmit (modals : gmap string Modal) (customId : string)
    : outcome unit * gmap string Modal :=
  match get modals customId with
  | None => (Throws (Error ("Modal not found: " +:+ customId)), modals)
  | Some modal =>
    match onSubmit modal customId with
    | Throws e => (Throws e, modals)
    | Returns _ =>
      if ephemeral modal
      then (Returns tt, (remove customId modals).2)
      else (Returns tt, modals)
    end
  end.

(** No colon in [s]. *)
Fixpoint no_colon (s : string) : bool :=
  match s with
  | EmptyString => true
  | String c rest => negb (Ascii.eqb c colon) && no_colon rest
  end.

(** The edit dialog of the examples. *)
Definition edit_x (eph : bool) : Modal :=
  {| id := "edit-x"; ephemeral := eph; title := "Edit";
     fields := [ {| f_name := "Message"; f_style := Short; f_customId := "message";
                    f_placeholder := None; f_required := None;
                    f_minLength := None; f_maxLength := None; f_value := None |} ];
     onSubmit := λ _, Returns tt |}.

(** [n] submissions with the same custom id, one after the other; the result
    of each, and the registry at the end. *)
Fixpoint submit_many (n : nat) (modals : gmap string Modal) (customId : string)
    : list (outcome unit) * gmap string Modal :=
  match n with
  | O => ([], modals)
  | S n' =>
    let r := handleSubmit modals customId in
    let rs := submit_many n' r.2 customId in
    (r.1 :: rs.1, rs.2)
  end.

End ModalManager.

(** * The runtime the commands run in *)

Module Runtime.


(** What the code reads of a command interaction. *)
Record Interaction := {
  i_id : string;
  i_createdTimestamp : Z;
  i_userId : string;
  i_guildId : option string;
  i_subcommand : option string;
}.

(** [InteractionReplyOptions], as [safeReply] assembles it. Embeds, component
    rows and files are opaque to this code. *)
Record Payload := {
  p_content : option string;
  p_ephemeral : bool;
  p_embeds : option (list string);
  p_components : option (list string);
  p_files : option (list string);
}.

(** What the outside sees. *)
Inductive Event :=
| Reply (interactionId : string) (payload : Payload)
| FetchReply (interactionId : string)
| FollowUp (interactionId : string) (payload : Payload)
| Log (message level scope : string) (logToConsole : bool).

(** The state the code runs in: the clock [Date.now()] reads, the cooldown
    tracker of the module, the interactions already replied to or deferred,
    the fate of the coming calls of the platform's primitives ([Some m]: the
    call rejects with an error of message [m]; [None], or nothing left: it
    resolves), and the events so far. *)
Record World := {
  now : Z;
  tracker : Cooldown.Tracker;
  replied : gset string;
  deferred : gset string;
  platform : list (option string);
  trace : list Event;
}.

(** Code with effects that can throw: [async] functions, awaited in order. *)
Definition M (A : Type) : Type := World → outcome A * World.

Definition ret {A} (a : A) : M A := λ w, (Returns a, w).

Definition throw {A} (e : exn) : M A := λ w, (Throws e, w).

Definition bind {A B} (m : M A) (k : A → M B) : M B := λ w,
  match m w with
  | (Returns a, w') => k a w'
  | (Throws e, w') => (Throws e, w')
  end.

(** [try { body } catch (err) { handler }] *)
Definition try_catch {A} (body : M A) (handler : exn → M A) : M A := λ w,
  match body w with
  | (Returns a, w') => (Returns a, w')
  | (Throws e, w') => handler e w'
  end.

Notation "'await' x := m 'in' k" := (bind m (λ x, k))
  (at level 10, x name, m at level 100, k at level 200).
Notation "m ;;; k" := (bind m (λ _, k)) (at level 100, right associativity).

(** [err.message] *)
Definition message_of (e : exn) : string :=
  match e with
  | Error m | RangeError m | TypeError m | InteractionError m _ _ => m
  end.

(** [String(err)], for an error object: its name, a colon, its message. *)
Definition toString (e : exn) : string :=
  match e with
  | Error m => "Error: " +:+ m
  | RangeError m => "RangeError: " +:+ m
  | TypeError m => "TypeError: " +:+ m
  | InteractionError m _ _ => "InteractionError: " +:+ m
  end.

Definition Date_now : M Z := λ w, (Returns (now w), w).

(** One call of a primitive of the platform; the event is recorded when the
    call resolves. *)
Definition platform_call (ev : Event) : M unit := λ w,
  match platform w with
  | Some m :: rest =>
    (Throws (Error m),
     {| now := now w; tracker := tracker w; replied := replied w;
        deferred := deferred w; platform := rest; trace := trace w |})
  | None :: rest =>
    (Returns tt,
     {| now := now w; tracker := tracker w; replied := replied w;
        deferred := deferred w; platform := rest; trace := trace w ++ [ev] |})
  | [] =>
    (Returns tt,
     {| now := now w; tracker := tracker w; replied := replied w;
        deferred := deferred w; platform := []; trace := trace w ++ [ev] |})
  end.

Definition mark_replied (interactionId : string) : M unit := λ w,
  (Returns tt,
   {| now := now w; tracker := tracker w;
      replied := {[interactionId]} ∪ replied w;
      deferred := deferred w; platform := platform w; trace := trace w |}).

(** [interaction.reply(payload)] *)
Definition interaction_reply (i : Interaction) (payload : Payload) : M unit :=
  platform_call (Reply (i_id i) payload) ;;; mark_replied (i_id i).

(** [interaction.fetchReply()] *)
Definition interaction_fetchReply (i : Interaction) : M unit :=
  platform_call (FetchReply (i_id i)).

(** [interaction.followUp(payload)] *)
Definition interaction_followUp (i : Interaction) (payload : Payload) : M unit :=
  platform_call (FollowUp (i_id i) payload).

(** [!interaction.replied && !interaction.deferred] *)
Definition fresh (i : Interaction) : M bool := λ w,
  (Returns (bool_decide (i_id i ∉ replied w) && bool_decide (i_id i ∉ deferred w)), w).

(** A string that is truthy: not empty. *)
Definition truthy_string (s : string) : option string :=
  if String.eqb s EmptyString then None else Some s.

Definition threeMinutes : Z := 3 * 60 * 1000.

(** The payload of [safeReply]: a field is present only for a truthy
    argument. *)
Definition reply_payload (content : string) (ephemeral : bool)
    (embeds components files : option (list string)) : Payload :=
  {| p_content := truthy_string content; p_ephemeral := ephemeral;
     p_embeds := embeds; p_components := components; p_files := files |}.

(** [safeReply(interaction, content, ephemeral, embeds, components, files)]
    (utils/editAndReply); the message it resolves to is not modelled. *)
Definition safeReply (i : Interaction) (content : string) (ephemeral : bool)
    (embeds components files : option (list string)) : M unit :=
  await t := Date_now in
  if (t - i_createdTimestamp i >? threeMinutes)%Z then
    throw (InteractionError "Interaction is older than 3 minutes" (i_id i) expired)
  else
    let payload := reply_payload content ephemeral embeds components files in
    try_catch
      (await first := fresh i in
       if first
       then interaction_reply i payload ;;; interaction_fetchReply i
       else interaction_followUp i payload)
      (λ err,
         throw (InteractionError ("Failed to reply to interaction: " +:+ message_of err)
                                 (i_id i) failed)).

(** [ILogger]: any implementation of [log(message, level, scope,
    logToConsole)]. *)
Record ILogger := {
  log : string → string → string → bool → M unit;
}.

(** [TToolboxLogger.log], for a logger with the given table of levels: an
    unknown level throws, a known one writes the record. The text of the
    exception is shortened. *)
Definition TToolboxLogger (levels : gmap string string) : ILogger :=
  {| log := λ message level scope logToConsole w,
       match levels !! level ≫= truthy_string with
       | None => (Throws (Error ("Unknown log level: " +:+ level)), w)
       | Some _ =>
         (Returns tt,
          {| now := now w; tracker := tracker w; replied := replied w;
             deferred := deferred w; platform := platform w;
             trace := trace w ++ [Log message level scope logToConsole] |})
       end |}.

(** [TToolboxLogger.DEFAULT_LEVELS]; the colour codes are named. *)
Definition DEFAULT_LEVELS : gmap string string :=
  <["info" := "cyan"]> (<["warn" := "yellow"]> (<["error" := "red"]> ∅)).

(** [this.logger?.log(message, level, scope, logToConsole)] *)
Definition log_opt (logger : option ILogger) (message level scope : string)
    (logToConsole : bool) : M unit :=
  match logger with
  | Some l => log l message level scope logToConsole
  | None => ret tt
  end.

(** [checkCooldown], reading the clock and updating the tracker. *)
Definition checkCooldown (commandName : string) (commandCooldown : option Z)
    (userId : string) : M Z := λ w,
  let r := Cooldown.checkCooldown commandName commandCooldown userId (now w) (tracker w) in
  (Returns r.1,
   {| now := now w; tracker := r.2; replied := replied w;
      deferred := deferred w; platform := platform w; trace := trace w |}).

(** [formatDuration(ms)] (utils/formatting); [%] is the remainder that takes
    the sign of the dividend. *)
Definition formatDuration (ms : Z) : string :=
  let seconds0 := (ms / 1000)%Z in
  let hours := (seconds0 / 3600)%Z in
  let seconds1 := Z.rem seconds0 3600 in
  let minutes := (seconds1 / 60)%Z in
  let seconds := Z.rem seconds1 60 in
  let parts0 := if (hours >? 0)%Z then [pretty hours +:+ "h"] else [] in
  let parts1 := if (minutes >? 0)%Z then parts0 ++ [pretty minutes +:+ "m"] else parts0 in
  let parts2 := if (seconds >? 0)%Z || bool_decide (parts1 = [])
                then parts1 ++ [pretty seconds +:+ "s"] else parts1 in
  String.concat " " parts2.

(** ** Command (classes/Command.class) *)

(** A command: its fields, and the code of the subclass ([run], and
    [additionalValidation], which returns null unless overridden). The
    permission level only matters to [toJSON]. *)
Record Command := {
  name : string;
  description : string;
  guildOnly : bool;
  cooldown : option Z;
  logger : option ILogger;
  additionalValidation : Interaction → M (option string);
  run : Interaction → M unit;
}.

(** [validate(interaction)]: the message of the failed check, or null. *)
Definition validate (c : Command) (i : Interaction) : M (option string) :=
  if guildOnly c && negb (bool_decide (is_Some (i_guildId i ≫= truthy_string)))
  then ret (Some "This command can only be used in a server.")
  else
    await secondsRemaining := checkCooldown (name c) (cooldown c) (i_userId i) in
    if (secondsRemaining >? 0)%Z
    then ret (Some ("You need to wait " +:+ formatDuration secondsRemaining
                    +:+ " before using this command again."))
    else additionalValidation c i.

(** The text logged after a successful execution. *)
Definition executed_message (commandName : string) (i : Interaction) : string :=
  commandName +:+ " "
  +:+ match i_subcommand i ≫= truthy_string with
      | Some subcommandName => "(" +:+ subcommandName +:+ ") "
      | None => EmptyString
      end
  +:+ "command executed".

Definition generic_failure : string := "An unexpected error occurred.".

(** The [catch] block of [Command.safeExecute], for a caught error object
    [err]: [err.message ?? err] is then its message. *)
Definition on_error (logger : option ILogger) (scope : string) (i : Interaction)
    (err : exn) : M unit :=
  log_opt logger ("An Error occurred: " +:+ message_of err) "error" scope true ;;;
  safeReply i generic_failure false None None None.

(** [Command.safeExecute(commandName, interaction, fn)] *)
Definition safeExecute (logger : option ILogger) (commandName : string)
    (i : Interaction) (fn : M unit) : M unit :=
  let scope := commandName +:+ "_EXECUTION" in
  try_catch
    (fn ;;; log_opt logger (executed_message commandName i) "info" scope false)
    (on_error logger scope i).

(** The function [execute] hands to [safeExecute]. *)
Definition execute_body (c : Command) (i : Interaction) : M unit :=
  await error := validate c i in
  match error ≫= truthy_string with
  | Some message => safeReply i message true None None None
  | None => run c i
  end.

(** [Command.execute(interaction, client)] *)
Definition execute (c : Command) (i : Interaction) : M unit :=
  safeExecute (logger c) (name c) i (execute_body c i).

(** [Command.setLogger(logger)] *)
Definition setLogger (l : ILogger) (c : Command) : Command :=
  {| name := name c; description := description c; guildOnly := guildOnly c;
     cooldown := cooldown c; logger := Some l;
     additionalValidation := additionalValidation c; run := run c |}.

(** ** Subcommand group (classes/SubcommandGroup.class) *)

Record SubcommandGroup := {
  g_name : string;
  g_description : string;
  g_subcommands : gmap string Command;
  g_logger : option ILogger;
}.

(** [SubcommandGroup.safeExecute(commandName, scope, interaction, fn)] *)
Definition group_safeExecute (logger : option ILogger) (commandName scope : string)
    (i : Interaction) (fn : M unit) : M unit :=
  try_catch
    (fn ;;; log_opt logger (executed_message commandName i) "info" scope false)
    (λ err,
       log_opt logger ("An Error occured" +:+ toString err) "error" scope true ;;;
       safeReply i generic_failure false None None None).

(** [SubcommandGroup.execute(interaction, client)];
    [interaction.options.getSubcommand()] throws when no subcommand was
    selected. *)
Definition group_execute (g : SubcommandGroup) (i : Interaction) : M unit :=
  match i_subcommand i with
  | None => throw (TypeError "No subcommand specified for interaction.")
  | Some subcommandName =>
    match g_subcommands g !! subcommandName with
    | None => throw (Error ("Unknown subcommand: " +:+ subcommandName))
    | Some subcommand =>
      group_safeExecute (g_logger g) (g_name g) (name subcommand +:+ "_EXECUTION") i
        (execute subcommand i)
    end
  end.

Definition group_setLogger (l : ILogger) (g : SubcommandGroup) : SubcommandGroup :=
  {| g_name := g_name g; g_description := g_description g;
     g_subcommands := g_subcommands g; g_logger := Some l |}.

(** ** Command manager (classes/CommandManager.class) *)

(** [Command | SubcommandGroup] *)
Inductive Entry :=
| ACommand (c : Command)
| AGroup (g : SubcommandGroup).

Definition entry_name (e : Entry) : string :=
  match e with ACommand c => name c | AGroup g => g_name g end.

Definition entry_execute (e : Entry) (i : Interaction) : M unit :=
  match e with ACommand c => execute c i | AGroup g => group_execute g i end.

Definition entry_setLogger (l : ILogger) (e : Entry) : Entry :=
  match e with
  | ACommand c => ACommand (setLogger l c)
  | AGroup g => AGroup (group_setLogger l g)
  end.

Record CommandManager := {
  commands : gmap string Entry;
  m_logger : option ILogger;
}.

(** [register(command)] *)
Definition register (command : Entry) (m : CommandManager) : CommandManager :=
  let command' := match m_logger m with
                  | Some l => entry_setLogger l command
                  | None => command
                  end in
  {| commands := <[entry_name command := command']> (commands m);
     m_logger := m_logger m |}.

(** [registerMultiple(commands)] *)
Definition registerMultiple (cs : list Entry) (m : CommandManager) : CommandManager :=
  foldl (λ acc cmd, register cmd acc) m cs.

(** [get(name)] *)
Definition get (m : CommandManager) (commandName : string) : option Entry :=
  commands m !! commandName.

(** [has(name)] *)
Definition has (m : CommandManager) (commandName : string) : bool :=
  bool_decide (is_Some (commands m !! commandName)).

(** [unregister(name)] *)
Definition unregister (commandName : string) (m : CommandManager)
    : bool * CommandManager :=
  (has m commandName,
   {| commands := delete commandName (commands m); m_logger := m_logger m |}).

(** [clear()] *)
Definition clear (m : CommandManager) : CommandManager :=
  {| commands := ∅; m_logger := m_logger m |}.

(** [executeCommand(commandName, interaction, client)] *)
Definition executeCommand (m : CommandManager) (commandName : string)
    (i : Interaction) : M unit :=
  match get m commandName with
  | None => throw (Error ("Command not found: " +:+ commandName))
  | Some command => entry_execute command i
  end.

(** ** Values for the statements and the examples *)

(** The world after one rejected call of a primitive. *)
Definition after_rejection (w : World) (rest : list (option string)) : World :=
  {| now := now w; tracker := tracker w; replied := replied w;
     deferred := deferred w; platform := rest; trace := trace w |}.

(** The events of a reply that goes through. *)
Definition delivery (i : Interaction) (payload : Payload) (w : World) : list Event :=
  if bool_decide (i_id i ∉ replied w) && bool_decide (i_id i ∉ deferred w)
  then [Reply (i_id i) payload; FetchReply (i_id i)]
  else [FollowUp (i_id i) payload].

(** An interaction created at time 0, by user [U1], in no guild. *)
Definition sample_interaction : Interaction :=
  {| i_id := "I1"; i_createdTimestamp := 0; i_userId := "U1";
     i_guildId := None; i_subcommand := None |}.

(** The world at a given reading of the clock, with the given fate of the
    platform calls, and nothing else. *)
Definition world_at (t : Z) (fate : list (option string)) : World :=
  {| now := t; tracker := ∅; replied := ∅; deferred := ∅;
     platform := fate; trace := [] |}.

(** A command whose handler throws; it logs to a [TToolboxLogger] with the
    default levels. *)
Definition boom : Command :=
  {| name := "boom"; description := "Always fails"; guildOnly := false;
     cooldown := None; logger := Some (TToolboxLogger DEFAULT_LEVELS);
     additionalValidation := λ _, ret None;
     run := λ _, throw (Error "connection to db-7 refused") |}.

(** The group of the scenario: [admin], with the one child [ban]. *)
Definition ban : Command :=
  {| name := "ban"; description := "Ban a member"; guildOnly := true;
     cooldown := None; logger := None;
     additionalValidation := λ _, ret None;
     run := λ i, safeReply i "Banned." false None None None |}.

Definition admin_group : SubcommandGroup :=
  {| g_name := "admin"; g_description := "Administration";
     g_subcommands := {[ "ban" := ban ]}; g_logger := None |}.

Definition sample_manager : CommandManager :=
  register (AGroup admin_group) {| commands := ∅; m_logger := None |}.

Definition kick_interaction : Interaction :=
  {| i_id := "I2"; i_createdTimestamp := 0; i_userId := "U1";
     i_guildId := Some "G1"; i_subcommand := Some "kick" |}.

End Runtime.

(** * Paginated browser (utils/PaginatedEmbed.class) *)

Module PaginatedEmbed.


(** [TIMES_MILISECONDS.MINUTE] (utils/miliseconds) *)
Definition MINUTE : Z := 60000.

(** What [onCustomButton] resolves to. [newItems] is tested for truthiness:
    an array, even an empty one, is truthy; [stopCollector] is truthy only
    when it is [true]. *)
Record CustomResult (T : Type) := {
  handled : bool;
  newItems : option (list T);
  stopCollector : option bool;
}.
Arguments handled {T} _.
Arguments newItems {T} _.
Arguments stopCollector {T} _.

(** [PaginatedEmbedOptions<T>]; the extra buttons are opaque to the session.
    The handler is the caller's code: it is given the action, the index and
    the items, and returns its result or throws. The session hands it its
    own array; the handler is taken here as a function of the content of
    that array, which acts on the session through the result it returns: a
    handler (or a caller) that changes the array in place is not covered. *)
Record PaginatedEmbedOptions (T : Type) := {
  timeout : option Z;
  onCustomButton : option (string → Z → list T → outcome (CustomResult T));
}.
Arguments timeout {T} _.
Arguments onCustomButton {T} _.

(** The state of a session once [start] has subscribed the collector:
    [ended] holds when the collector has been stopped. *)
Record Session (T : Type) := {
  index : Z;
  items : list T;
  ended : bool;
}.
Arguments Build_Session {T} _ _ _.
Arguments index {T} _.
Arguments items {T} _.
Arguments ended {T} _.

(** What a session does to the outside. [Rendered] is the update of the
    message with [buildEmbed(items[index], index, items.length)];
    [ControlsCleared] is the [editReply] of the listener of [end], which
    runs whenever the collector stops. *)
Inductive Effect (T : Type) :=
| Refused (userId : string)
| Rendered (item : option T) (index total : Z)
| CollectorStopped
| ControlsCleared
| HandlerThrew (e : exn).
Arguments Refused {T} userId.
Arguments Rendered {T} item index total.
Arguments CollectorStopped {T}.
Arguments ControlsCleared {T}.
Arguments HandlerThrew {T} e.

(** What reaches a session: a click on a button, the timer of the
    collector, a call of [stop()]. *)
Inductive Input :=
| Click (userId action : string)
| TimerElapsed
| Stop.

Section Browser.
Context {T : Type}.

(** [items.length] *)
Definition total (l : list T) : Z := Z.of_nat (length l).

(** [items[index]]: undefined outside the array. *)
Definition item_at (l : list T) (i : Z) : option T :=
  if (i <? 0)%Z then None else l !! Z.to_nat i.

(** The session as the constructor leaves it and [start] subscribes it. *)
Definition start (l : list T) : Session T :=
  {| index := 0; items := l; ended := false |}.

(** [options?.timeout ?? TIMES_MILISECONDS.MINUTE * 2] *)
Definition collector_time (options : option (PaginatedEmbedOptions T)) : Z :=
  default (MINUTE * 2)%Z (options ≫= timeout).

Definition render (s : Session T) : Effect T :=
  Rendered (item_at (items s) (index s)) (index s) (total (items s)).

(** The [switch] on [prev] and [next]. *)
Definition paginate (s : Session T) (action : string) : Session T * list (Effect T) :=
  if String.eqb action "prev" then
    let s' := {| index := Z.max 0 (index s - 1); items := items s; ended := ended s |} in
    (s', [render s'])
  else if String.eqb action "next" then
    let s' := {| index := Z.min (total (items s) - 1) (index s + 1);
                 items := items s; ended := ended s |} in
    (s', [render s'])
  else (s, []).

(** The re-render after a handled custom action, skipped for [delete]. *)
Definition rerender (s : Session T) (action : string) : list (Effect T) :=
  if String.eqb action "delete" then [] else [render s].

(** The branch [if (result.handled)]. *)
Definition apply_result (s : Session T) (action : string) (result : CustomResult T)
    : Session T * list (Effect T) :=
  match newItems result with
  | Some l =>
    let i := Z.min (index s) (total l - 1) in
    if (total l =? 0)%Z || bool_decide (stopCollector result = Some true)
    then ({| index := i; items := l; ended := true |},
          [CollectorStopped; ControlsCleared])
    else let s' := {| index := i; items := l; ended := ended s |} in
         (s', rerender s' action)
  | None => (s, rerender s action)
  end.

Variable owner : string.
Variable options : option (PaginatedEmbedOptions T).

(** The listener of [collect], for a click by [userId] on the button
    [action]. *)
Definition collect (s : Session T) (userId action : string)
    : Session T * list (Effect T) :=
  if negb (String.eqb userId owner) then (s, [Refused userId])
  else
    match options ≫= onCustomButton with
    | Some handler =>
      match handler action (index s) (items s) with
      | Throws e => (s, [HandlerThrew e])
      | Returns result =>
        if handled result then apply_result s action result
        else paginate s action
      end
    | None => paginate s action
    end.

(** One input. A collector that has ended delivers nothing, and stopping it
    again does nothing. *)
Definition step (s : Session T) (input : Input) : Session T * list (Effect T) :=
  if ended s then (s, [])
  else
    match input with
    | Click userId action => collect s userId action
    | TimerElapsed | Stop =>
      ({| index := index s; items := items s; ended := true |},
       [CollectorStopped; ControlsCleared])
    end.

(** The state after a sequence of inputs. *)
Definition run (s : Session T) (inputs : list Input) : Session T :=
  foldl (λ s input, (step s input).1) s inputs.

(** The index is a position of the list. *)
Definition in_range (s : Session T) : Prop :=
  items s ≠ [] ∧ (0 ≤ index s ≤ total (items s) - 1)%Z.

End Browser.


(** A handler that only asks for the session to stop. *)
Definition stop_only : PaginatedEmbedOptions string :=
  {| timeout := None;
     onCustomButton := Some (λ _ _ _,
       Returns {| handled := true; newItems := None; stopCollector := Some true |}) |}.

(** A handler that answers [delete] with the list without its first item,
    and asks to stop. *)
Definition delete_first : PaginatedEmbedOptions string :=
  {| timeout := None;
     onCustomButton := Some (λ action _ l,
       if String.eqb action "delete"
       then Returns {| handled := true; newItems := Some (tail l);
                       stopCollector := Some true |}
       else Returns {| handled := false; newItems := None; stopCollector := None |}) |}.


End PaginatedEmbed.

(** * Formatting helpers (utils/formatting) *)

Module Formatting.

(** [getDaySuffix(number)], for a whole number; [%] is the remainder that
    takes the sign of the dividend. *)
Definition getDaySuffix (number : Z) : string :=
  if (number >? 3)%Z && (number <? 21)%Z then "th"
  else match Z.rem number 10 with
       | 1%Z => "st"
       | 2%Z => "nd"
       | 3%Z => "rd"
       | _ => "th"
       end.

(** The suffix of an English ordinal, for comparison: [th] for 11, 12 and 13
    in every hundred, and otherwise by the last digit. *)
Definition english_ordinal_suffix (n : Z) : string :=
  if (11 <=? n mod 100)%Z && (n mod 100 <=? 13)%Z then "th"
  else match (n mod 10)%Z with
       | 1%Z => "st"
       | 2%Z => "nd"
       | 3%Z => "rd"
       | _ => "th"
       end.

(** The parts [formatDuration] prints for [h] hours, [m] minutes and [s]
    seconds: the hours and minutes that are not zero, and the seconds when
    they are not zero or nothing else is printed. *)
Definition render_parts (h m s : Z) : string :=
  String.concat " "
    ((if (h >? 0)%Z then [pretty h +:+ "h"] else [])
     ++ (if (m >? 0)%Z then [pretty m +:+ "m"] else [])
     ++ (if (s >? 0)%Z || ((h =? 0)%Z && (m =? 0)%Z) then [pretty s +:+ "s"] else [])).

End Formatting.

(** * File logger (utils/TToolboxLogger.class, types/logger) *)

Module Logger.
Import Runtime.

(** [LoggerOptions] *)
Record LoggerOptions := {
  logDir : option string;
  logFileName : option string;
  customLevels : option (gmap string string);
  extendDefaultLevels : option bool;
}.

(** The table of levels the constructor sets up:
    [{...DEFAULT_LEVELS, ...customLevels}] when the defaults are extended
    (the default), and otherwise the custom table, or the default one when
    the custom table has no key. *)
Definition constructor_levels (options : LoggerOptions) : gmap string string :=
  let custom := default ∅ (customLevels options) in
  if default true (extendDefaultLevels options)
  then custom ∪ DEFAULT_LEVELS
  else if bool_decide (custom = ∅) then DEFAULT_LEVELS else custom.

(** The options [rotate()] builds the new logger from; the directory and the
    time-stamped file name are the caller's. *)
Definition rotate_options (dir fileName : string) (levels : gmap string string)
    : LoggerOptions :=
  {| logDir := Some dir; logFileName := Some fileName;
     customLevels := Some levels; extendDefaultLevels := Some false |}.

(** The logger a constructor call gives, as far as logging goes (the log
    file itself is outside the model). *)
Definition new_logger (options : LoggerOptions) : ILogger :=
  TToolboxLogger (constructor_levels options).

(** [info(message, scope, logToConsole = false)] *)
Definition info (l : ILogger) (message scope : string) (logToConsole : option bool)
    : M unit :=
  log l message "info" scope (default false logToConsole).

(** [warn(message, scope, logToConsole = false)] *)
Definition warn (l : ILogger) (message scope : string) (logToConsole : option bool)
    : M unit :=
  log l message "warn" scope (default false logToConsole).

(** [error(message, scope, logToConsole = true)] *)
Definition error (l : ILogger) (message scope : string) (logToConsole : option bool)
    : M unit :=
  log l message "error" scope (default true logToConsole).

(** Every colour of the table is a non-empty string. *)
Definition coloured (levels : gmap string string) : Prop :=
  ∀ level colour, levels !! level = Some colour → colour ≠ EmptyString.

(** A table with the one level [debug], for the examples. *)
Definition debug_only : gmap string string := {[ "debug" := "magenta" ]}.

(** A table with the one level [error]. *)
Definition errors_only : gmap string string := {[ "error" := "red" ]}.

End Logger.

(** * More of the command pipeline *)

Module Pipeline.
Import Runtime.

(** The command with another [run] handler. *)
Definition with_run (r : Interaction → M unit) (c : Command) : Command :=
  {| name := name c; description := description c; guildOnly := guildOnly c;
     cooldown := cooldown c; logger := logger c;
     additionalValidation := additionalValidation c; run := r |}.

(** The command with another [additionalValidation] hook. *)
Definition with_validation (v : Interaction → M (option string)) (c : Command)
    : Command :=
  {| name := name c; description := description c; guildOnly := guildOnly c;
     cooldown := cooldown c; logger := logger c;
     additionalValidation := v; run := run c |}.

(** A logger, if any, whose [log] does not throw on records of the level. *)
Definition accepts (l : option ILogger) (level : string) : Prop :=
  ∀ lg, l = Some lg →
    ∀ message scope logToConsole w,
      returned (log lg message level scope logToConsole w).1 = true.

(** The guild check of [validate] passes. *)
Definition guild_ok (c : Command) (i : Interaction) : Prop :=
  guildOnly c = false ∨ is_Some (i_guildId i ≫= truthy_string).

(** The world with another tracker. *)
Definition set_tracker (t : Cooldown.Tracker) (w : World) : World :=
  {| now := now w; tracker := t; replied := replied w;
     deferred := deferred w; platform := platform w; trace := trace w |}.

(** The world with more events. *)
Definition add_events (evs : list Event) (w : World) : World :=
  {| now := now w; tracker := tracker w; replied := replied w;
     deferred := deferred w; platform := platform w; trace := trace w ++ evs |}.

(** A command with a cooldown of five seconds, that may only be used in a
    guild. *)
Definition slow : Command :=
  {| name := "slow"; description := "Takes its time"; guildOnly := true;
     cooldown := Some 5000%Z; logger := None;
     additionalValidation := λ _, ret None;
     run := λ i, safeReply i "Done." false None None None |}.

(** An interaction of user [U1] in guild [G1], created at time 0. *)
Definition guild_interaction : Interaction :=
  {| i_id := "I4"; i_createdTimestamp := 0; i_userId := "U1";
     i_guildId := Some "G1"; i_subcommand := None |}.

End Pipeline.

(** * More of the command manager (classes/CommandManager.class) *)

Module Manager.
Import Runtime.

(** The logger an entry carries. *)
Definition entry_logger (e : Entry) : option ILogger :=
  match e with ACommand c => logger c | AGroup g => g_logger g end.

(** The entry as [register] stores it: with the manager's logger, when the
    manager has one. *)
Definition stored (m : CommandManager) (e : Entry) : Entry :=
  match m_logger m with
  | Some l => entry_setLogger l e
  | None => e
  end.

(** [setLogger(logger)] of the manager: the logger is kept, and set on every
    registered entry. *)
Definition setLogger (l : ILogger) (m : CommandManager) : CommandManager :=
  {| commands := entry_setLogger l <$> commands m; m_logger := Some l |}.

(** [size] *)
Definition size (m : CommandManager) : nat := base.size (commands m).

(** The children of a registered group, or nothing for a command. *)
Definition children (e : Entry) : gmap string Command :=
  match e with ACommand _ => ∅ | AGroup g => g_subcommands g end.

(** A command that answers [Pong]. *)
Definition ping : Command :=
  {| name := "ping"; description := "Check latency"; guildOnly := false;
     cooldown := None; logger := None;
     additionalValidation := λ _, ret None;
     run := λ i, safeReply i "Pong" false None None None |}.

Definition empty_manager : CommandManager := {| commands := ∅; m_logger := None |}.

(** A command without logger, whose handler throws. *)
Definition with_no_logger : Command :=
  {| name := "quiet"; description := "Fails silently"; guildOnly := false;
     cooldown := None; logger := None;
     additionalValidation := λ _, ret None;
     run := λ _, throw (Error "connection to db-7 refused") |}.

End Manager.

(** * Buttons (utils/embeds) *)

Module Embeds.

(** discord.js's [ButtonStyle] *)
Inductive ButtonStyle := Primary | Secondary | Success | Danger | Link | Premium.

(** What [createButton] sets on the [ButtonBuilder]. *)
Record ButtonBuilder := {
  bb_customId : string;
  bb_disabled : bool;
  bb_label : string;
  bb_style : ButtonStyle;
}.

(** The argument of [createButton]. *)
Record ButtonConfig := {
  type : string;
  disabled : option bool;
  label : option string;
  style : option ButtonStyle;
  customId : option string;
}.

(** [createButton({ type, disabled = false, label, style, customId })] *)
Definition createButton (cfg : ButtonConfig) : ButtonBuilder :=
  let id := default (type cfg) (customId cfg) in
  let off := default false (disabled cfg) in
  if String.eqb (type cfg) "prev" then
    {| bb_customId := id; bb_disabled := off;
       bb_label := default "Previous" (label cfg); bb_style := Secondary |}
  else if String.eqb (type cfg) "next" then
    {| bb_customId := id; bb_disabled := off;
       bb_label := default "Next" (label cfg); bb_style := Secondary |}
  else if String.eqb (type cfg) "edit" then
    {| bb_customId := id; bb_disabled := off;
       bb_label := default "Edit" (label cfg); bb_style := Primary |}
  else if String.eqb (type cfg) "delete" then
    {| bb_customId := id; bb_disabled := off;
       bb_label := default "Delete" (label cfg); bb_style := Danger |}
  else
    {| bb_customId := id; bb_disabled := off;
       bb_label := default "Unknown" (label cfg);
       bb_style := default Secondary (style cfg) |}.

(** [createPaginationButtons(index, total)] *)
Definition createPaginationButtons (index total : Z) : list ButtonBuilder :=
  [ createButton {| type := "prev"; disabled := Some (index =? 0)%Z; label := None;
                    style := None; customId := None |};
    createButton {| type := "next"; disabled := Some (index =? total - 1)%Z;
                    label := None; style := None; customId := None |} ].

(** [PaginationButtonLocation] (types/button, not part of the sources): the
    three locations [createButtonsRow] switches on, [embrace], [start] and
    [end]. *)
Inductive PaginationButtonLocation := embrace | at_start | at_end.

(** [createButtonsRow(normalButtons, pagination)]: the components of the
    row. *)
Definition createButtonsRow (normalButtons : list ButtonBuilder)
    (pagination : option (list ButtonBuilder * PaginationButtonLocation))
    : list ButtonBuilder :=
  match pagination with
  | Some ([first; second], location) =>
    match location with
    | embrace => [first] ++ normalButtons ++ [second]
    | at_start => [first; second] ++ normalButtons
    | at_end => normalButtons ++ [first; second]
    end
  | _ => normalButtons
  end.

(** [PaginatedEmbed.buildButtons()], for a session with the given extra
    buttons ([options?.extraButtons]). *)
Definition buildButtons {T} (extraButtons : option (list ButtonBuilder))
    (s : PaginatedEmbed.Session T) : list (list ButtonBuilder) :=
  [ createButtonsRow (default [] extraButtons)
      (Some (createPaginationButtons (PaginatedEmbed.index s)
               (PaginatedEmbed.total (PaginatedEmbed.items s)),
             embrace)) ].

(** The input comes from the owner of the session, or is no click. *)
Definition by_owner (owner : string) (input : PaginatedEmbed.Input) : bool :=
  match input with
  | PaginatedEmbed.Click userId _ => String.eqb userId owner
  | _ => true
  end.

(** The input ends the collector. *)
Definition ends (input : PaginatedEmbed.Input) : bool :=
  match input with
  | PaginatedEmbed.Click _ _ => false
  | _ => true
  end.

End Embeds.

(** * Help pages (classes/CommandManager.class, [getHelpPages]) *)

Module Help.

(** What the loop of [getHelpPages] reads of an entry of [getAllSorted()]:
    whether it is a group, its name and description, and for a group the
    names and descriptions of [getSubcommandList()]. The sort itself
    ([localeCompare]) is the runtime's. *)
Inductive HelpEntry :=
| HGroup (name description : string) (subcommands : list (string * string))
| HCommand (name description : string).

(** [{ name, value }] *)
Record Line := { l_name : string; l_value : string }.

#[export] Instance Line_eq_dec : EqDecision Line.
Proof. solve_decision. Defined.

(** The line of a command or of a subcommand. *)
Definition command_line (name description : string) : Line :=
  {| l_name := "› " +:+ name; l_value := description |}.

(** The header pushed when a page of ungrouped commands starts. *)
Definition other_header : Line :=
  {| l_name := "─── OTHER ───"; l_value := "Other commands" |}.

(** [otherCommands.length % commandsPerPage === 0]; the remainder by zero is
    [NaN], which equals nothing. *)
Definition page_starts (len : nat) (commandsPerPage : Z) : bool :=
  if (commandsPerPage =? 0)%Z then false
  else (Z.rem (Z.of_nat len) commandsPerPage =? 0)%Z.

(** [otherCommands.splice(0, commandsPerPage)]: the removed elements and
    what is left; a negative count removes nothing. *)
Definition splice0 {A} (count : Z) (l : list A) : list A * list A :=
  (take (Z.to_nat count) l, drop (Z.to_nat count) l).

(** [while (otherCommands.length) allPages.push(otherCommands.splice(0,
    commandsPerPage))], for at most [fuel] rounds; [None] when the loop has
    not ended by then. *)
Fixpoint split_pages (fuel : nat) (commandsPerPage : Z) (otherCommands : list Line)
    (allPages : list (list Line)) : option (list (list Line)) :=
  match otherCommands with
  | [] => Some allPages
  | _ :: _ =>
    match fuel with
    | O => None
    | S fuel' =>
      let r := splice0 commandsPerPage otherCommands in
      split_pages fuel' commandsPerPage r.2 (allPages ++ [r.1])
    end
  end.

Section Pages.
(** [String.prototype.toUpperCase], the case mapping of the runtime. *)
Variable toUpperCase : string → string.

(** The page of a group: a header and one line per subcommand. *)
Definition group_page (name description : string) (subcommands : list (string * string))
    : list Line :=
  {| l_name := "─── " +:+ toUpperCase name +:+ " ───";
     l_value := default "No description." (Runtime.truthy_string description) |}
  :: map (λ sub, command_line sub.1 sub.2) subcommands.

(** One round of the loop over the sorted entries; the state is
    [(subcommandPages, otherCommands)]. *)
Definition collect_entry (commandsPerPage : Z)
    (acc : list (list Line) * list Line) (e : HelpEntry)
    : list (list Line) * list Line :=
  match e with
  | HGroup name description subcommands =>
    (acc.1 ++ [group_page name description subcommands], acc.2)
  | HCommand name description =>
    let otherCommands :=
      if page_starts (length acc.2) commandsPerPage
      then acc.2 ++ [other_header] else acc.2 in
    (acc.1, otherCommands ++ [command_line name description])
  end.

(** [getHelpPages(commandsPerPage = 5)], on the sorted entries. *)
Definition getHelpPages (fuel : nat) (commandsPerPage : option Z)
    (sorted : list HelpEntry) : option (list (list Line)) :=
  let n := default 5%Z commandsPerPage in
  let acc := foldl (collect_entry n) ([], []) sorted in
  split_pages fuel n acc.2 acc.1.

End Pages.

(** The lines of the ungrouped commands, in order. *)
Definition command_lines (sorted : list HelpEntry) : list Line :=
  flat_map (λ e, match e with
                 | HCommand name description => [command_line name description]
                 | HGroup _ _ _ => []
                 end) sorted.

(** The pages of the groups, in order. *)
Definition group_pages (toUpperCase : string → string) (sorted : list HelpEntry)
    : list (list Line) :=
  flat_map (λ e, match e with
                 | HGroup name description subcommands =>
                   [group_page toUpperCase name description subcommands]
                 | HCommand _ _ => []
                 end) sorted.

(** What the loop does to [otherCommands] for one ungrouped command. *)
Definition add_command (commandsPerPage : Z) (otherCommands : list Line) (line : Line)
    : list Line :=
  (if page_starts (length otherCommands) commandsPerPage
   then otherCommands ++ [other_header] else otherCommands) ++ [line].

(** A group and three commands, for the examples. *)
Definition sample_help : list HelpEntry :=
  [ HGroup "admin" EmptyString [("ban", "Ban a member")];
    HCommand "help" "Show this help";
    HCommand "ping" "Check latency";
    HCommand "roll" "Roll a die" ].

(** The lines of a page that are not the header of the ungrouped commands. *)
Definition without_header (page : list Line) : list Line :=
  filter (λ l, l ≠ other_header) page.

End Help.

(** * Event handler base class (classes/DiscordHandler.class) *)

Module Handler.

(** The handler methods [setupOtherHandlers] looks at, in its order. *)
Inductive HandlerMethod :=
| handleMessageCreation
| handleInteractionCreation
| handleReactionAdded
| handleReactionRemoval
| handleMessageDeletion.

(** The events of the client the listeners are set up for. *)
Inductive ClientEvent :=
| MessageCreate
| InteractionCreate
| MessageReactionAdd
| MessageReactionRemove
| MessageDelete.

Definition event_of (m : HandlerMethod) : ClientEvent :=
  match m with
  | handleMessageCreation => MessageCreate
  | handleInteractionCreation => InteractionCreate
  | handleReactionAdded => MessageReactionAdd
  | handleReactionRemoval => MessageReactionRemove
  | handleMessageDeletion => MessageDelete
  end.

(** A class below [DiscordHandler]: the handler methods its body defines.
    The methods are abstract in [DiscordHandler], so its own prototype has
    none of them. *)
Definition ClassBody : Type := HandlerMethod → bool.

(** A property lookup along the prototype chain, from a class up through its
    ancestors (the class first); the function found is identified by the
    height of the class that defines it, [None] being [undefined]. *)
Fixpoint lookup_method (chain : list ClassBody) (m : HandlerMethod) : option nat :=
  match chain with
  | [] => None
  | body :: ancestors =>
    if body m then Some (length ancestors) else lookup_method ancestors m
  end.

(** [this.handleX !== baseClass.prototype.handleX], where [baseClass] is
    [Object.getPrototypeOf(this.constructor)], the parent of the class of the
    instance. *)
Definition overridden (chain : list ClassBody) (m : HandlerMethod) : bool :=
  negb (bool_decide (lookup_method chain m = lookup_method (tail chain) m)).

(** [setupOtherHandlers()], for an instance whose class has the given chain
    of ancestors below [DiscordHandler]: the events a listener is set up
    for, in order. *)
Definition setupOtherHandlers (chain : list ClassBody) : list ClientEvent :=
  event_of <$>
    List.filter (overridden chain)
      [handleMessageCreation; handleInteractionCreation; handleReactionAdded;
       handleReactionRemoval; handleMessageDeletion].

(** A bot class that implements the five handlers. *)
Definition implements_all : ClassBody := λ _, true.

(** A class that adds nothing to its parent. *)
Definition overrides_nothing : ClassBody := λ _, false.

End Handler.

(** * Part II: properties *)

(** * The cooldown tracker: window and grants *)

Module CooldownSpec.
Import Cooldown.

Lemma sweep_lookup now m u :
  sweep now m !! u = match m !! u with
                     | Some e => if decide (e ≤ now)%Z then None else Some e
                     | None => None
                     end.
Proof.
  unfold sweep. destruct (m !! u) as [e|] eqn:E.
  - case_decide as H.
    + apply map_lookup_filter_None. right. intros x Hx. simpl.
      rewrite E in Hx. injection Hx as <-. tauto.
    + apply map_lookup_filter_Some. split; [done | simpl; lia].
  - apply map_lookup_filter_None. left. done.
Qed.

Lemma entry_insert tr c m c' u :
  entry (<[c := m]> tr) c' u = if decide (c = c') then m !! u else entry tr c' u.
Proof.
  unfold entry. rewrite lookup_insert. case_decide; done.
Qed.

Lemma entry_default tr c u : entry tr c u = default ∅ (tr !! c) !! u.
Proof. unfold entry. destruct (tr !! c); simpl; [done | by rewrite lookup_empty]. Qed.

(** What a call does to the entry of the pair it is made for. *)
Lemma checkCooldown_own c d u now tr :
  d ≠ 0%Z →
  checkCooldown c (Some d) u now tr =
  match entry tr c u with
  | Some e =>
    if decide (now < e)%Z then
      if decide (e = 0)%Z
      then (0%Z, <[c := <[u := (now + d)%Z]> (sweep now (default ∅ (tr !! c)))]> tr)
      else ((e - now)%Z, <[c := sweep now (default ∅ (tr !! c))]> tr)
    else (0%Z, <[c := <[u := (now + d)%Z]> (sweep now (default ∅ (tr !! c)))]> tr)
  | None => (0%Z, <[c := <[u := (now + d)%Z]> (sweep now (default ∅ (tr !! c)))]> tr)
  end.
Proof.
  intros Hd. unfold checkCooldown.
  destruct (Z.eqb_spec d 0) as [|_]; [done |].
  cbv zeta. rewrite sweep_lookup, <- entry_default.
  destruct (entry tr c u) as [e|]; [| done].
  unfold truthy.
  destruct (decide (e ≤ now)%Z), (decide (now < e)%Z); try lia; try done.
  destruct (Z.eqb_spec e 0), (Z.ltb_spec now e), (decide (e = 0)%Z);
    simpl; try lia; done.
Qed.

Section Facts.
Variable cd : string → option Z.

(** What a call does to the entry of another pair: it can only sweep it,
    and only once it has expired. *)
Lemma step_other tr k c u :
  ¬ (c_cmd k = c ∧ c_user k = u) →
  entry (step cd tr k) c u = entry tr c u ∨
  (entry (step cd tr k) c u = None ∧
   ∃ e, entry tr c u = Some e ∧ (e ≤ c_now k)%Z).
Proof.
  intros Hne. unfold step, checkCooldown.
  destruct (cd (c_cmd k)) as [d|]; [| by left].
  destruct (d =? 0)%Z; [by left |]. cbv zeta.
  assert (Hs : ∀ m, m = sweep (c_now k) (default ∅ (tr !! c_cmd k)) ∨
                    m = <[c_user k := (c_now k + d)%Z]>
                          (sweep (c_now k) (default ∅ (tr !! c_cmd k))) →
               entry (<[c_cmd k := m]> tr) c u = entry tr c u ∨
               (entry (<[c_cmd k := m]> tr) c u = None ∧
                ∃ e, entry tr c u = Some e ∧ (e ≤ c_now k)%Z)).
  { intros m Hm. rewrite entry_insert. case_decide as Hc; [| by left].
    assert (Hu : c_user k ≠ u) by (intros Heq; apply Hne; by split).
    assert (Hl : m !! u = sweep (c_now k) (default ∅ (tr !! c_cmd k)) !! u).
    { destruct Hm as [-> | ->]; [done | by rewrite lookup_insert_ne]. }
    rewrite Hl, sweep_lookup, <- entry_default, Hc.
    destruct (entry tr c u) as [e|]; [| by left].
    case_decide; [right; eauto | by left]. }
  destruct (sweep (c_now k) (default ∅ (tr !! c_cmd k)) !! c_user k) as [e|];
    [destruct (truthy e && (c_now k <? e)%Z) |]; simpl; apply Hs; auto.
Qed.

Lemma run_calls_others c u ks : ∀ tr e,
  others c u ks →
  entry tr c u = Some e →
  (entry (run_calls cd tr ks) c u = Some e ∨ entry (run_calls cd tr ks) c u = None)
  ∧ (Forall (λ k, (c_now k < e)%Z) ks → entry (run_calls cd tr ks) c u = Some e).
Proof.
  induction ks as [|k ks IH]; intros tr e Hothers He; simpl.
  - split; auto.
  - apply Forall_cons in Hothers as [Hk Hks].
    destruct (step_other tr k c u Hk) as [Heq | [Hnone (e' & He' & Hle)]].
    + rewrite <- Heq in He. destruct (IH _ _ Hks He) as [H1 H2].
      split; [done |]. intros Hall. apply Forall_cons in Hall as [_ Hall]. auto.
    + assert (e' = e) as -> by congruence.
      assert (Hgone : entry (run_calls cd (step cd tr k) ks) c u = None).
      { clear - Hks Hnone. revert Hnone. generalize (step cd tr k).
        induction ks as [|k' ks IH]; intros tr0 Hnone; simpl; [done |].
        apply Forall_cons in Hks as [Hk' Hks]. apply IH; [done |].
        destruct (step_other tr0 k' c u Hk') as [-> | [-> _]]; done. }
      split; [by right |].
      intros Hall. apply Forall_cons in Hall as [Hlt _]. lia.
Qed.

(** Every recorded expiry was written by a grant: it is at most one
    cooldown ahead of the clock. *)
Lemma reachable_inv t tr :
  reachable cd t tr →
  (0 ≤ t)%Z ∧
  ∀ c u e, entry tr c u = Some e → ∃ d, cd c = Some d ∧ (e ≤ t + d)%Z.
Proof.
  induction 1 as [| t tr k Hr [Ht IH] Hle].
  - split; [lia |]. intros c u e. unfold entry. by rewrite lookup_empty.
  - split; [lia |]. intros c u e.
    destruct (decide (c_cmd k = c ∧ c_user k = u)) as [[Hc Hu] | Hne].
    + unfold step. destruct (cd (c_cmd k)) as [d|] eqn:Hcd.
      * destruct (decide (d = 0%Z)) as [-> | Hd].
        { simpl. intros He. destruct (IH _ _ _ He) as (d' & Hd' & Hb).
          exists d'. split; [done | lia]. }
        rewrite checkCooldown_own by done. subst c u.
        destruct (entry tr (c_cmd k) (c_user k)) as [e0|] eqn:He0.
        -- destruct (IH _ _ _ He0) as (d' & Hd' & Hb).
           assert (d' = d) as -> by congruence.
           repeat case_decide; simpl; rewrite entry_insert;
             (case_decide; [| done]);
             rewrite ?lookup_insert_eq, ?sweep_lookup, <- ?entry_default, ?He0;
             repeat case_decide; intros [= <-]; exists d; split; auto; lia.
        -- simpl. rewrite entry_insert. case_decide; [| done].
           rewrite lookup_insert_eq. intros [= <-]. exists d. split; [done | lia].
      * simpl. intros He. destruct (IH _ _ _ He) as (d' & Hd' & Hb).
        exists d'. split; [done | lia].
    + destruct (step_other tr k c u Hne) as [-> | [-> _]]; [| done].
      intros He. destruct (IH _ _ _ He) as (d' & Hd' & Hb).
      exists d'. split; [done | lia].
Qed.

End Facts.

(** A denied call: the wait is exactly the time left, and the entry stays. *)
Lemma checkCooldown_denied c d u now tr e :
  d ≠ 0%Z → entry tr c u = Some e → (now < e)%Z → e ≠ 0%Z →
  (checkCooldown c (Some d) u now tr).1 = (e - now)%Z ∧
  entry (checkCooldown c (Some d) u now tr).2 c u = Some e.
Proof.
  intros Hd He Hlt Hnz. rewrite checkCooldown_own by done. rewrite He.
  destruct (decide (now < e)%Z); [| lia].
  destruct (decide (e = 0%Z)); [lia |]. simpl. split; [done |].
  rewrite entry_insert. destruct (decide (c = c)); [| done].
  rewrite sweep_lookup, <- entry_default, He.
  destruct (decide (e ≤ now)%Z); [lia | done].
Qed.

(** A granted call: no wait, and the entry becomes [now + d]. *)
Lemma checkCooldown_granted c d u now tr :
  d ≠ 0%Z → (∀ e, entry tr c u = Some e → (e ≤ now)%Z) →
  (checkCooldown c (Some d) u now tr).1 = 0%Z ∧
  entry (checkCooldown c (Some d) u now tr).2 c u = Some (now + d)%Z.
Proof.
  intros Hd Hexp. rewrite checkCooldown_own by done.
  destruct (entry tr c u) as [e|] eqn:He.
  - specialize (Hexp e eq_refl). destruct (decide (now < e)%Z); [lia |]. simpl.
    rewrite entry_insert. destruct (decide (c = c)); [| done].
    by rewrite lookup_insert_eq.
  - simpl. rewrite entry_insert. destruct (decide (c = c)); [| done].
    by rewrite lookup_insert_eq.
Qed.

Example slow_first :
  (checkCooldown "slow" (Some 5000%Z) "U1" 1000 ∅).1 = 0%Z.
Proof. reflexivity. Qed.

Example slow_again :
  (checkCooldown "slow" (Some 5000%Z) "U1" 1200
     (checkCooldown "slow" (Some 5000%Z) "U1" 1000 ∅).2).1 = 4800%Z.
Proof. vm_compute. reflexivity. Qed.

Example slow_other_user :
  (checkCooldown "slow" (Some 5000%Z) "U2" 1100
     (checkCooldown "slow" (Some 5000%Z) "U1" 1000 ∅).2).1 = 0%Z.
Proof. vm_compute. reflexivity. Qed.

Example slow_later :
  (checkCooldown "slow" (Some 5000%Z) "U1" 6000
     (checkCooldown "slow" (Some 5000%Z) "U1" 1000 ∅).2).1 = 0%Z.
Proof. vm_compute. reflexivity. Qed.

Example no_cooldown_untracked :
  checkCooldown "ping" None "U1" 1000 ∅ = (0%Z, ∅) ∧
  checkCooldown "ping" (Some 0%Z) "U1" 1000 ∅ = (0%Z, ∅).
Proof. split; reflexivity. Qed.

(** C1, as the specification states it, fails on the code in three ways.
    The tracker is keyed by the command name alone: with [set] registered
    once with a cooldown of 60000 ms and once with [D = 1000] ms, a user
    granted the first at 100 is refused the second at 200 with a wait of
    59900, more than [D], and is still refused at 1300, when [D] has elapsed.
    The expiry is compared with the clock of each call: when the clock steps
    back from 5000 to 3000 after a grant, the wait is 3000, more than
    [D = 1000]. And an expiry of zero counts as no entry: granted at -1000,
    before the epoch, the user is granted again at -500. *)
Lemma checkCooldown_window_needs_one_duration_and_clock :
  let granted := checkCooldown "set" (Some 60000%Z) "U1" 100 ∅ in
  let denied := checkCooldown "set" (Some 1000%Z) "U1" 200 granted.2 in
  let later := checkCooldown "set" (Some 1000%Z) "U1" 1300 denied.2 in
  let back := checkCooldown "slow" (Some 1000%Z) "U1" 3000
                (checkCooldown "slow" (Some 1000%Z) "U1" 5000 ∅).2 in
  let early := checkCooldown "slow" (Some 1000%Z) "U1" (-1000) ∅ in
  let again := checkCooldown "slow" (Some 1000%Z) "U1" (-500) early.2 in
  (granted.1 = 0%Z ∧ entry granted.2 "set" "U1" = Some 60100%Z
   ∧ denied.1 = 59900%Z ∧ (1000 < denied.1)%Z
   ∧ later.1 = 58800%Z ∧ (200 + 1000 ≤ 1300)%Z)
  ∧ (back.1 = 3000%Z ∧ (1000 < back.1)%Z)
  ∧ (entry early.2 "slow" "U1" = Some 0%Z ∧ (-500 < 0)%Z
     ∧ again.1 = 0%Z ∧ entry again.2 "slow" "U1" = Some 500%Z).
Proof.
  cbv zeta. repeat split; solve [vm_compute; reflexivity | vm_compute; discriminate].
Qed.

(** C1 (amended). For a command with cooldown [D > 0] whose name is called
    with that cooldown only ([cd] gives each name one cooldown), in every
    tracker the process can reach from the empty one by calls whose clock
    readings are not before the epoch and do not decrease, and for every
    user: a call made while the user holds an unexpired entry returns exactly
    the time left, which is positive and at most [D], and leaves the entry as
    it is; a call made when the user has no unexpired entry returns zero and
    writes the entry [now + D]. After such a grant, whatever other users and
    commands do in between, the next call of the same user is granted once
    [D] has elapsed, and denied with the exact time left before that. *)
Theorem checkCooldown_window (cd : string → option Z) (cmd : string) (D : Z)
    (t : Z) (tr : Tracker) (u : string) (now : Z) :
  cd cmd = Some D → (0 < D)%Z → reachable cd t tr → (t ≤ now)%Z →
  let r := checkCooldown cmd (Some D) u now tr in
  (∀ e, entry tr cmd u = Some e → (now < e)%Z →
     r.1 = (e - now)%Z ∧ (0 < r.1 ≤ D)%Z ∧ entry r.2 cmd u = Some e)
  ∧ ((∀ e, entry tr cmd u = Some e → (e ≤ now)%Z) →
     r.1 = 0%Z ∧ entry r.2 cmd u = Some (now + D)%Z)
  ∧ (r.1 = 0%Z → ∀ ks now', others cmd u ks →
     ((now + D ≤ now')%Z →
      (checkCooldown cmd (Some D) u now' (run_calls cd r.2 ks)).1 = 0%Z)
     ∧ (Forall (λ k, (c_now k ≤ now')%Z) ks → (now ≤ now' < now + D)%Z →
        (checkCooldown cmd (Some D) u now' (run_calls cd r.2 ks)).1
        = (now + D - now')%Z)).
Proof.
  intros Hcd HD Hr Hnow r.
  destruct (reachable_inv cd t tr Hr) as [Ht Hinv].
  assert (HD0 : D ≠ 0%Z) by lia.
  assert (Hdeny : ∀ e, entry tr cmd u = Some e → (now < e)%Z →
            r.1 = (e - now)%Z ∧ (0 < r.1 ≤ D)%Z ∧ entry r.2 cmd u = Some e).
  { intros e He Hlt.
    destruct (Hinv _ _ _ He) as (d & Hd & Hb).
    assert (d = D) as -> by congruence.
    destruct (checkCooldown_denied cmd D u now tr e) as [H1 H2]; try done; [lia |].
    subst r. rewrite H1. repeat split; [lia | lia | done]. }
  split; [exact Hdeny |].
  split; [intros Hexp; by apply checkCooldown_granted |].
  intros Hzero ks now' Hothers.
  assert (Hentry : entry r.2 cmd u = Some (now + D)%Z).
  { destruct (entry tr cmd u) as [e|] eqn:He.
    - destruct (decide (now < e)%Z) as [Hlt | Hge].
      + destruct (Hdeny e eq_refl Hlt) as (H1 & H2 & _). lia.
      + apply checkCooldown_granted; [done |].
        intros e' He'. rewrite He in He'. injection He' as <-. lia.
    - apply checkCooldown_granted; [done |].
      intros e' He'. rewrite He in He'. discriminate He'. }
  destruct (run_calls_others cd cmd u ks r.2 _ Hothers Hentry) as [Hcase Hkeep].
  split.
  - intros Hlate. apply checkCooldown_granted; [done |].
    intros e He. destruct Hcase as [Hc | Hc]; rewrite Hc in He; [| done].
    injection He as <-. lia.
  - intros Hclock Hin.
    destruct (checkCooldown_denied cmd D u now' (run_calls cd r.2 ks) (now + D)%Z)
      as [H1 _]; try done; try lia.
    apply Hkeep. eapply Forall_impl; [exact Hclock |]. simpl. intros k Hk.
    (* the clock does not run backwards: every call of [ks] is before [now'] *)
    lia.
Qed.

(** The theorem at the scenario: [U1] is granted at 1000, [U2] calls at 1100,
    and [U1] comes back. *)
Lemma checkCooldown_window_witness :
  let r := checkCooldown "slow" (Some 5000%Z) "U1" 1000 ∅ in
  r.1 = 0%Z ∧
  (checkCooldown "slow" (Some 5000%Z) "U1" 6000
     (run_calls slow_cd r.2 [Call "slow" "U2" 1100])).1 = 0%Z ∧
  (checkCooldown "slow" (Some 5000%Z) "U1" 1200
     (run_calls slow_cd r.2 [Call "slow" "U2" 1100])).1 = 4800%Z.
Proof.
  pose proof (checkCooldown_window slow_cd "slow" 5000 0 ∅ "U1" 1000
                eq_refl eq_refl (reach_start slow_cd) ltac:(lia)) as H.
  cbv zeta in H. destruct H as (_ & Hgrant & Hnext).
  destruct Hgrant as [Hz _].
  { intros e He. vm_compute in He. discriminate He. }
  split; [exact Hz |].
  assert (Ho : others "slow" "U1" [Call "slow" "U2" 1100]).
  { repeat constructor. simpl. intros [_ Hu]. discriminate Hu. }
  destruct (Hnext Hz [Call "slow" "U2" 1100] 6000%Z Ho) as [Hlate _].
  destruct (Hnext Hz [Call "slow" "U2" 1100] 1200%Z Ho) as [_ Hearly].
  split; [apply Hlate; lia |].
  apply Hearly; [repeat constructor; simpl; lia | lia].
Defined.


End CooldownSpec.

(** * The permission resolver: cases and totality *)

Module PermissionsSpec.
Import Permissions.

Example resolve_flags :
  getPermissionsForLevel sampleBits Administrator (flags [KickMembers; BanMembers])
  = Returns (Some 6%Z).
Proof. reflexivity. Qed.

Example resolve_admin :
  getPermissionsForLevel sampleBits Administrator admin = Returns (Some 8%Z).
Proof. reflexivity. Qed.

(** C7, as the specification states it, fails on a numeric level that is not
    an integer: [getPermissionsForLevel(1.5)] reaches [BigInt(1.5)], which
    throws. *)
Lemma getPermissionsForLevel_not_total :
  returned (getPermissionsForLevel sampleBits Administrator (number NonIntegral))
  = false.
Proof. reflexivity. Qed.

(** C7 (amended). The resolver is a function of the requirement alone:
    administrator-only gives the administrator bit of the platform's table,
    owner-only and disabled give 0, a bigint or an integral number is passed
    through unchanged, a list of flag names gives the bitwise OR of the named
    flags, and [user], [null] and [undefined] give null. It returns on every
    value of the variant but a number that is not an integer, on which it
    throws a [RangeError]. *)
Theorem getPermissionsForLevel_cases {Flag : Type} (bits : Flag → Z) (adm : Flag) :
  getPermissionsForLevel bits adm admin = Returns (Some (bits adm))
  ∧ getPermissionsForLevel bits adm owner = Returns (Some 0%Z)
  ∧ getPermissionsForLevel bits adm disabled = Returns (Some 0%Z)
  ∧ (∀ b, getPermissionsForLevel bits adm (bigint b) = Returns (Some b))
  ∧ (∀ z, getPermissionsForLevel bits adm (number (Integral z)) = Returns (Some z))
  ∧ (∀ names, getPermissionsForLevel bits adm (flags names)
       = Returns (Some (foldr (λ name acc, Z.lor (bits name) acc) 0%Z names)))
  ∧ getPermissionsForLevel bits adm user = Returns None
  ∧ getPermissionsForLevel bits adm null = Returns None
  ∧ getPermissionsForLevel bits adm undefined = Returns None
  ∧ (∀ level, returned (getPermissionsForLevel bits adm level) = true
              ↔ level ≠ number NonIntegral)
  ∧ (∃ msg, getPermissionsForLevel bits adm (number NonIntegral)
            = Throws (RangeError msg)).
Proof.
  repeat split; try reflexivity.
  - intros names. simpl. f_equal. f_equal. unfold PermissionsBitField.
    assert (H : ∀ acc, foldl (λ a name, Z.lor a (bits name)) acc names
                = Z.lor acc (foldr (λ name a, Z.lor (bits name) a) 0%Z names)).
    { induction names as [|n names IH]; intros acc; simpl.
      - by rewrite Z.lor_0_r.
      - by rewrite IH, Z.lor_assoc. }
    by rewrite H, Z.lor_0_l.
  - intros Hr ->. discriminate Hr.
  - intros Hne. destruct level as [| | | | | | b | [z|] | names]; try reflexivity.
    by destruct Hne.
  - eexists. reflexivity.
Qed.

(** C10. The level [user], and an absent requirement ([null] or
    [undefined]), resolve to null, like any unrestricted requirement: the
    exported descriptor carries no default member permissions. *)
Theorem getPermissionsForLevel_user {Flag : Type} (bits : Flag → Z) (adm : Flag) :
  getPermissionsForLevel bits adm user = Returns None
  ∧ getPermissionsForLevel bits adm null = Returns None
  ∧ getPermissionsForLevel bits adm undefined = Returns None
  ∧ (∀ name description,
       toJSON bits adm name description user
       = Returns {| d_name := name; d_description := description;
                    d_default_member_permissions := None |}
       ∧ toJSON bits adm name description user
         = toJSON bits adm name description null
       ∧ toJSON bits adm name description user
         = toJSON bits adm name description undefined).
Proof. repeat split. Qed.


End PermissionsSpec.

(** * The modal registry: lookup and one-shot dispatch *)

Module ModalManagerSpec.
Import ModalManager.

Lemma baseId_suffixed s suffix :
  no_colon s = true → baseId (s +:+ ":" +:+ suffix) = s.
Proof.
  induction s as [|c s IH]; simpl; [done |].
  intros [Hc Hs]%andb_true_iff. apply negb_true_iff in Hc. rewrite Hc.
  f_equal. by apply IH.
Qed.

Lemma baseId_no_colon s : no_colon s = true → baseId s = s.
Proof.
  induction s as [|c s IH]; simpl; [done |].
  intros [Hc Hs]%andb_true_iff. apply negb_true_iff in Hc. rewrite Hc.
  f_equal. by apply IH.
Qed.

Example baseId_edit : baseId "edit-x:42" = "edit-x" ∧ baseId "edit-x" = "edit-x"
                      ∧ baseId "a:b:c" = "a" ∧ baseId EmptyString = EmptyString.
Proof. repeat split. Qed.

(** C6. Lookup returns the exact entry when there is one, and only otherwise
    the entry of the prefix before the first colon. After registering a
    definition under [edit-x] (more generally, under an id without a colon),
    looking up [edit-x:42] (any suffixed id with no entry of its own) returns
    that definition, as looking up [edit-x] does; an id that matches neither
    exactly nor by its prefix is not found. *)
Theorem get_exact_then_prefix (modals : gmap string Modal) (customId : string) :
  (∀ modal, modals !! customId = Some modal → get modals customId = Some modal)
  ∧ (modals !! customId = None → get modals customId = modals !! baseId customId)
  ∧ (modals !! customId = None → modals !! baseId customId = None →
     get modals customId = None)
  ∧ (∀ data suffix,
       no_colon (id data) = true →
       modals !! (id data +:+ ":" +:+ suffix) = None →
       let modals' := (buildAndRegister data modals).2 in
       get modals' (id data +:+ ":" +:+ suffix) = Some data
       ∧ get modals' (id data) = Some data)
  ∧ (∀ data,
       id data = "edit-x" → modals !! "edit-x:42" = None →
       let modals' := (buildAndRegister data modals).2 in
       get modals' "edit-x:42" = get modals' "edit-x"
       ∧ get modals' "edit-x" = Some data).
Proof.
  assert (Hgen : ∀ data suffix,
       no_colon (id data) = true →
       modals !! (id data +:+ ":" +:+ suffix) = None →
       get (buildAndRegister data modals).2 (id data +:+ ":" +:+ suffix) = Some data
       ∧ get (buildAndRegister data modals).2 (id data) = Some data).
  { intros data suffix Hnc Hfree. unfold get, buildAndRegister. simpl.
    rewrite lookup_insert_eq. split; [| done].
    rewrite baseId_suffixed by done.
    destruct (decide (id data = id data +:+ ":" +:+ suffix)) as [Heq | Hne].
    - rewrite <- Heq. by rewrite lookup_insert_eq.
    - rewrite lookup_insert_ne, Hfree by done. by rewrite lookup_insert_eq. }
  split; [intros modal Hex; unfold get; by rewrite Hex |].
  split; [intros Hex; unfold get; by rewrite Hex |].
  split; [intros Hex Hbase; unfold get; by rewrite Hex |].
  split; [intros data suffix Hnc Hfree; by apply Hgen |].
  intros data Hid Hfree.
  destruct (Hgen data "42") as [H1 H2]; [by rewrite Hid | by rewrite Hid |].
  rewrite Hid in H1, H2.
  change ("edit-x" +:+ ":" +:+ "42") with "edit-x:42" in H1.
  cbv zeta. by rewrite H1, H2.
Qed.

(** The theorem on the empty registry. *)
Lemma get_exact_then_prefix_witness :
  get (buildAndRegister (edit_x false) ∅).2 "edit-x:42"
  = get (buildAndRegister (edit_x false) ∅).2 "edit-x"
  ∧ get (∅ : gmap string Modal) "other:1" = None.
Proof.
  destruct (get_exact_then_prefix ∅ "edit-x:42") as (_ & _ & _ & _ & Hedit).
  destruct (get_exact_then_prefix ∅ "other:1") as (_ & _ & Hmiss & _).
  split.
  - apply (Hedit (edit_x false) eq_refl eq_refl).
  - apply Hmiss; reflexivity.
Defined.

(** A submission that finds no definition fails, and changes nothing. *)
Lemma handleSubmit_not_found modals customId :
  get modals customId = None →
  handleSubmit modals customId
  = (Throws (Error ("Modal not found: " +:+ customId)), modals).
Proof. intros H. unfold handleSubmit. by rewrite H. Qed.

(** A definition that is not ephemeral stays: every one of any number of
    submissions reaches its handler. *)
Lemma handleSubmit_persistent modals customId modal n :
  get modals customId = Some modal →
  ephemeral modal = false →
  submit_many n modals customId
  = (replicate n (match onSubmit modal customId with
                  | Returns _ => Returns tt
                  | Throws e => Throws e
                  end), modals).
Proof.
  intros Hget Heph. induction n as [|n IH]; simpl; [done |].
  assert (Hone : handleSubmit modals customId
                 = (match onSubmit modal customId with
                    | Returns _ => Returns tt
                    | Throws e => Throws e
                    end, modals)).
  { unfold handleSubmit. rewrite Hget, Heph. by destruct (onSubmit modal customId). }
  rewrite Hone. simpl. by rewrite IH.
Qed.

(** An ephemeral definition submitted under its own id, an id without a
    colon, is gone after the first successful submission. *)
Lemma handleSubmit_one_shot_exact modals customId modal :
  modals !! customId = Some modal →
  ephemeral modal = true →
  no_colon customId = true →
  onSubmit modal customId = Returns tt →
  let r := handleSubmit modals customId in
  r.1 = Returns tt
  ∧ handleSubmit r.2 customId
    = (Throws (Error ("Modal not found: " +:+ customId)), r.2).
Proof.
  intros Hex Heph Hnc Hok.
  assert (Hone : handleSubmit modals customId = (Returns tt, delete customId modals)).
  { unfold handleSubmit, get. by rewrite Hex, Hok, Heph. }
  cbv zeta. rewrite Hone. simpl. split; [done |].
  apply handleSubmit_not_found. unfold get.
  rewrite baseId_no_colon by done. by rewrite lookup_delete_eq.
Qed.

(** An ephemeral definition reached through the prefix fallback is not
    removed: the registry is the same after the submission, whatever the
    suffix. *)
Lemma handleSubmit_fallback_keeps modals customId modal :
  modals !! customId = None →
  modals !! baseId customId = Some modal →
  onSubmit modal customId = Returns tt →
  handleSubmit modals customId = (Returns tt, modals).
Proof.
  intros Hex Hbase Hok. unfold handleSubmit, get, remove.
  rewrite Hex, Hbase, Hok. simpl.
  destruct (ephemeral modal); [| done].
  by rewrite delete_id.
Qed.

(** C2 fails on the code for a submission matched through the prefix
    fallback: the ephemeral definition [edit-x] answers the submission
    [edit-x:42], [remove] is then called with [edit-x:42], which is no key of
    the registry, and the definition stays; the second submission of
    [edit-x:42] reaches the handler again. *)
Theorem handleSubmit_suffix_not_removed :
  let modals := (buildAndRegister (edit_x true) ∅).2 in
  let first := handleSubmit modals "edit-x:42" in
  let second := handleSubmit first.2 "edit-x:42" in
  ephemeral (edit_x true) = true
  ∧ get modals "edit-x:42" = Some (edit_x true)
  ∧ first = (Returns tt, modals)
  ∧ second = (Returns tt, modals)
  ∧ has second.2 "edit-x:42" = true.
Proof.
  assert (Hget : get (buildAndRegister (edit_x true) ∅).2 "edit-x:42"
                 = Some (edit_x true)).
  { unfold get, buildAndRegister. simpl.
    rewrite lookup_insert_ne by done. rewrite lookup_empty.
    change (baseId "edit-x:42") with "edit-x". by rewrite lookup_insert_eq. }
  assert (Hone : handleSubmit (buildAndRegister (edit_x true) ∅).2 "edit-x:42"
                 = (Returns tt, (buildAndRegister (edit_x true) ∅).2)).
  { unfold handleSubmit. rewrite Hget. simpl.
    rewrite delete_id; [done |]. rewrite lookup_insert_ne by done.
    apply lookup_empty. }
  cbv zeta. rewrite Hone. cbn [snd]. rewrite Hone.
  repeat split; done.
Qed.


End ModalManagerSpec.

(** * Replies, handler exceptions and dispatch *)

Module RuntimeSpec.
Import Runtime.

Example formatDuration_examples :
  formatDuration 4200 = "4s" ∧ formatDuration 65000 = "1m 5s"
  ∧ formatDuration 3723000 = "1h 2m 3s" ∧ formatDuration 0 = "0s".
Proof. repeat split; vm_compute; reflexivity. Qed.

(** ** Sequencing and [try]/[catch] *)

Lemma try_catch_throws {A} (body : M A) (handler : exn → M A) w e w' :
  try_catch body handler w = (Throws e, w') →
  ∃ e0 w0, body w = (Throws e0, w0) ∧ handler e0 w0 = (Throws e, w').
Proof.
  unfold try_catch. destruct (body w) as [[a|e0] w0]; intros H; [simplify_eq |].
  eauto.
Qed.

Lemma try_catch_caught {A} (body : M A) (handler : exn → M A) w e w1 :
  body w = (Throws e, w1) → try_catch body handler w = handler e w1.
Proof. intros H. unfold try_catch. by rewrite H. Qed.

Lemma bind_throws {A B} (m : M A) (k : A → M B) w e w1 :
  m w = (Throws e, w1) → bind m k w = (Throws e, w1).
Proof. intros H. unfold bind. by rewrite H. Qed.

Lemma bind_returns {A B} (m : M A) (k : A → M B) w a w1 :
  m w = (Returns a, w1) → bind m k w = k a w1.
Proof. intros H. unfold bind. by rewrite H. Qed.

(** ** The reply window *)

Lemma safeReply_expired i content ephemeral embeds components files w :
  (now w - i_createdTimestamp i > threeMinutes)%Z →
  safeReply i content ephemeral embeds components files w
  = (Throws (InteractionError "Interaction is older than 3 minutes" (i_id i) expired), w).
Proof.
  intros Hold. unfold safeReply, bind, Date_now.
  destruct (Z.gtb_spec (now w - i_createdTimestamp i) threeMinutes); [done | lia].
Qed.

Lemma safeReply_rejected i content ephemeral embeds components files w m rest :
  (now w - i_createdTimestamp i ≤ threeMinutes)%Z →
  platform w = Some m :: rest →
  safeReply i content ephemeral embeds components files w
  = (Throws (InteractionError ("Failed to reply to interaction: " +:+ m) (i_id i) failed),
     after_rejection w rest).
Proof.
  intros Hin Hp. unfold safeReply, bind, Date_now.
  destruct (Z.gtb_spec (now w - i_createdTimestamp i) threeMinutes); [lia |].
  unfold try_catch, fresh, interaction_reply, interaction_followUp, bind, platform_call.
  destruct (bool_decide (i_id i ∉ replied w) && bool_decide (i_id i ∉ deferred w));
    rewrite Hp; reflexivity.
Qed.

(** Whatever [safeReply] throws is an [InteractionError] for the interaction. *)
Lemma safeReply_typed i content ephemeral embeds components files w e w' :
  safeReply i content ephemeral embeds components files w = (Throws e, w') →
  ∃ message reason, e = InteractionError message (i_id i) reason.
Proof.
  unfold safeReply, bind, Date_now.
  destruct (now w - i_createdTimestamp i >? threeMinutes)%Z.
  - intros [= <- _]. eauto.
  - intros H. apply try_catch_throws in H as (e0 & w0 & _ & H).
    unfold throw in H. injection H as <- _. eauto.
Qed.

Lemma safeReply_delivered i content ephemeral embeds components files w :
  (now w - i_createdTimestamp i ≤ threeMinutes)%Z →
  platform w = [] →
  ∃ w', safeReply i content ephemeral embeds components files w = (Returns tt, w')
        ∧ trace w' = trace w
                     ++ delivery i (reply_payload content ephemeral embeds components files) w.
Proof.
  intros Hin Hp. unfold safeReply, bind, Date_now, delivery.
  destruct (Z.gtb_spec (now w - i_createdTimestamp i) threeMinutes); [lia |].
  unfold try_catch, fresh, interaction_reply, interaction_fetchReply,
    interaction_followUp, bind, platform_call, mark_replied.
  destruct (bool_decide (i_id i ∉ replied w) && bool_decide (i_id i ∉ deferred w));
    rewrite Hp; simpl; eexists; split; try reflexivity.
  simpl. by rewrite <- app_assoc.
Qed.

Example safeReply_in_time :
  (safeReply sample_interaction "Pong" false None None None (world_at 180000 [])).1
  = Returns tt.
Proof. vm_compute. reflexivity. Qed.

Example safeReply_too_late :
  (safeReply sample_interaction "Pong" false None None None (world_at 180001 [])).1
  = Throws (InteractionError "Interaction is older than 3 minutes" "I1" expired).
Proof. vm_compute. reflexivity. Qed.

(** C9. [safeReply] checks the age of the interaction before it calls any
    primitive: more than three minutes (180000 ms) after the creation
    timestamp it throws an [InteractionError] with the interaction's id and
    reason [expired], and no primitive is called (the world is unchanged);
    within the window, when the reply attempt rejects, it throws an
    [InteractionError] with the interaction's id and reason [failed]. It
    throws nothing else. *)
Theorem safeReply_window (i : Interaction) (content : string) (ephemeral : bool)
    (embeds components files : option (list string)) (w : World) :
  threeMinutes = 180000%Z
  ∧ ((now w - i_createdTimestamp i > threeMinutes)%Z →
     safeReply i content ephemeral embeds components files w
     = (Throws (InteractionError "Interaction is older than 3 minutes" (i_id i) expired),
        w))
  ∧ (∀ m rest,
       (now w - i_createdTimestamp i ≤ threeMinutes)%Z →
       platform w = Some m :: rest →
       ∃ w', safeReply i content ephemeral embeds components files w
             = (Throws (InteractionError ("Failed to reply to interaction: " +:+ m)
                                         (i_id i) failed), w')
             ∧ trace w' = trace w)
  ∧ (∀ e w', safeReply i content ephemeral embeds components files w = (Throws e, w') →
             ∃ message reason, e = InteractionError message (i_id i) reason).
Proof.
  split; [reflexivity |].
  split; [apply safeReply_expired |].
  split; [| apply safeReply_typed].
  intros m rest Hin Hp. eexists. split; [by apply safeReply_rejected |]. done.
Qed.

(** The theorem at an interaction that is 200 s old, and at one whose reply
    the platform rejects. *)
Lemma safeReply_window_witness :
  safeReply sample_interaction "Pong" false None None None (world_at 200000 [])
  = (Throws (InteractionError "Interaction is older than 3 minutes" "I1" expired),
     world_at 200000 [])
  ∧ ∃ w', safeReply sample_interaction "Pong" false None None None
            (world_at 1000 [Some "Unknown interaction"])
          = (Throws (InteractionError
                       ("Failed to reply to interaction: " +:+ "Unknown interaction")
                       "I1" failed), w')
          ∧ trace w' = [].
Proof.
  destruct (safeReply_window sample_interaction "Pong" false None None None
              (world_at 200000 [])) as (_ & Hexpired & _).
  destruct (safeReply_window sample_interaction "Pong" false None None None
              (world_at 1000 [Some "Unknown interaction"])) as (_ & _ & Hfailed & _).
  split.
  - apply Hexpired. vm_compute. reflexivity.
  - apply (Hfailed "Unknown interaction" []); [| reflexivity].
    vm_compute. intros H. discriminate H.
Defined.

(** ** Exceptions of the handler *)

(** When validation passes, the function handed to [safeExecute] ends as the
    handler does. *)
Lemma execute_body_run c i w error w0 :
  validate c i w = (Returns error, w0) →
  error ≫= truthy_string = None →
  execute_body c i w = run c i w0.
Proof.
  intros Hv Herr. unfold execute_body.
  rewrite (bind_returns _ _ _ _ _ Hv). by rewrite Herr.
Qed.

Lemma safeExecute_caught l commandName i fn w e w1 :
  fn w = (Throws e, w1) →
  safeExecute l commandName i fn w = on_error l (commandName +:+ "_EXECUTION") i e w1.
Proof.
  intros Hfn. unfold safeExecute. apply try_catch_caught.
  by apply bind_throws.
Qed.

(** C4, as the specification states it, fails on the code: the handler of
    [boom] throws, [execute] catches the exception and logs it, and the
    reply with the generic message is rejected by the platform; the
    [InteractionError] of [safeReply] leaves [execute]. *)
Lemma execute_propagates_reply_failure :
  (execute boom sample_interaction (world_at 1000 [Some "Unknown interaction"])).1
  = Throws (InteractionError "Failed to reply to interaction: Unknown interaction"
                             "I1" failed).
Proof. vm_compute. reflexivity. Qed.

(** The same when the handler has used up the reply window. *)
Example execute_propagates_expiry :
  (execute boom sample_interaction (world_at 180001 [])).1
  = Throws (InteractionError "Interaction is older than 3 minutes" "I1" expired).
Proof. vm_compute. reflexivity. Qed.

(** C4 (amended). An error object thrown by the run handler never leaves
    [execute] as it is: it is caught, the logger (when there is one) is
    called with an error record and console mirroring, and [safeReply] is
    called with the generic failure message, which does not depend on the
    exception. When the logger returns and that reply goes through,
    [execute] returns; when the logger returns, the only exception [execute]
    can end with is the [InteractionError] of the failed reply. The thrown
    value [e] is an error object (every [exn] is): a thrown [null] or
    [undefined] is left out. *)
Theorem execute_catches_handler (c : Command) (i : Interaction) (w w0 w1 : World)
    (error : option string) (e : exn) :
  validate c i w = (Returns error, w0) →
  error ≫= truthy_string = None →
  run c i w0 = (Throws e, w1) →
  let scope := name c +:+ "_EXECUTION" in
  let logged := log_opt (logger c) ("An Error occurred: " +:+ message_of e)
                        "error" scope true in
  execute c i w
  = (logged ;;; safeReply i "An unexpected error occurred." false None None None) w1
  ∧ (∀ w2, logged w1 = (Returns tt, w2) →
       ((now w2 - i_createdTimestamp i ≤ threeMinutes)%Z → platform w2 = [] →
        ∃ w3, execute c i w = (Returns tt, w3)
              ∧ trace w3
                = trace w2
                  ++ delivery i {| p_content := Some "An unexpected error occurred.";
                                   p_ephemeral := false; p_embeds := None;
                                   p_components := None; p_files := None |} w2)
       ∧ (∀ e' w3, execute c i w = (Throws e', w3) →
            ∃ message reason, e' = InteractionError message (i_id i) reason))
  ∧ (logger c = None → logged w1 = (Returns tt, w1))
  ∧ (∀ levels, logger c = Some (TToolboxLogger levels) →
       is_Some (levels !! "error" ≫= truthy_string) →
       ∃ w2, logged w1 = (Returns tt, w2)
             ∧ trace w2 = trace w1 ++ [Log ("An Error occurred: " +:+ message_of e)
                                            "error" scope true]
             ∧ now w2 = now w1 ∧ platform w2 = platform w1).
Proof.
  intros Hv Herr Hrun scope logged.
  assert (Hbody : execute_body c i w = (Throws e, w1)).
  { by rewrite (execute_body_run c i w error w0). }
  assert (Hexec : execute c i w
                  = (logged ;;; safeReply i "An unexpected error occurred."
                                  false None None None) w1).
  { unfold execute. by rewrite (safeExecute_caught _ _ _ _ _ _ _ Hbody). }
  split; [exact Hexec |].
  split; [| split].
  - intros w2 Hlog. rewrite Hexec, (bind_returns _ _ _ _ _ Hlog). split.
    + intros Hin Hcalm.
      destruct (safeReply_delivered i "An unexpected error occurred." false
                  None None None w2 Hin Hcalm) as (w3 & Hr & Ht).
      exists w3. split; [exact Hr |]. exact Ht.
    + intros e' w3 Hthrow. by eapply safeReply_typed.
  - intros Hnone. unfold logged. by rewrite Hnone.
  - intros levels Hl [color Hcolor]. unfold logged. rewrite Hl. simpl.
    rewrite Hcolor. eexists. split; [reflexivity |]. done.
Qed.

(** The theorem at [boom], with a platform that accepts the reply: the error
    is logged with console mirroring and the invoker is sent the generic
    message. *)
Lemma execute_catches_handler_witness :
  ∃ w3, execute boom sample_interaction (world_at 1000 []) = (Returns tt, w3)
        ∧ trace w3
          = [Log "An Error occurred: connection to db-7 refused" "error"
                 "boom_EXECUTION" true;
             Reply "I1" {| p_content := Some "An unexpected error occurred.";
                           p_ephemeral := false; p_embeds := None;
                           p_components := None; p_files := None |};
             FetchReply "I1"].
Proof.
  destruct (execute_catches_handler boom sample_interaction (world_at 1000 [])
              (world_at 1000 []) (world_at 1000 []) None
              (Error "connection to db-7 refused")
              eq_refl eq_refl eq_refl) as (_ & Hreply & _ & Hlog).
  destruct (Hlog DEFAULT_LEVELS eq_refl) as (w2 & Hlogged & Htrace & Hnow & Hfate).
  { exists "red". vm_compute. reflexivity. }
  destruct (Hreply w2 Hlogged) as [Hok _].
  destruct Hok as (w3 & Hexec & Hsent).
  { rewrite Hnow. vm_compute. intros H. discriminate H. }
  { rewrite Hfate. reflexivity. }
  exists w3. split; [exact Hexec |].
  rewrite Hsent, Htrace. unfold delivery.
  assert (Hfresh : replied w2 = ∅ ∧ deferred w2 = ∅).
  { vm_compute in Hlogged. injection Hlogged as <-. split; reflexivity. }
  destruct Hfresh as [-> ->]. reflexivity.
Defined.

(** ** Dispatch *)

Example dispatch_kick :
  (executeCommand sample_manager "admin" kick_interaction (world_at 1000 [])).1
  = Throws (Error "Unknown subcommand: kick").
Proof. vm_compute. reflexivity. Qed.

Example dispatch_ban :
  (executeCommand sample_manager "admin"
     {| i_id := "I3"; i_createdTimestamp := 0; i_userId := "U1";
        i_guildId := Some "G1"; i_subcommand := Some "ban" |} (world_at 1000 [])).1
  = Returns tt.
Proof. vm_compute. reflexivity. Qed.




End RuntimeSpec.

(** * The paginated browser: index and end of session *)

Module PaginatedEmbedSpec.
Import PaginatedEmbed.

Section BrowserFacts.
Context {T : Type}.
Variable owner : string.
Variable options : option (PaginatedEmbedOptions T).

Lemma total_pos (l : list T) : l ≠ [] → (1 ≤ total l)%Z.
Proof. unfold total. destruct l; [done | simpl; lia]. Qed.

Lemma total_zero (l : list T) : total l = 0%Z ↔ l = [].
Proof. unfold total. destruct l; simpl; split; try done; lia. Qed.


Lemma paginate_ended (s : Session T) action :
  ended (paginate s action).1 = ended s.
Proof.
  unfold paginate.
  destruct (String.eqb action "prev"); [done |].
  by destruct (String.eqb action "next").
Qed.




(** Nothing happens to a session that has ended. *)
Lemma run_ended inputs : ∀ s : Session T,
  ended s = true → run owner options s inputs = s.
Proof.
  induction inputs as [|input inputs IH]; intros s He; simpl; [done |].
  unfold step. rewrite He. simpl. by apply IH.
Qed.

End BrowserFacts.


Lemma step_handled {T} owner options handler (s : Session T) action result :
  ended s = false →
  options ≫= onCustomButton = Some handler →
  handler action (index s) (items s) = Returns result →
  handled result = true →
  step owner options s (Click owner action) = apply_result s action result.
Proof.
  intros He Hh Hr Hd. unfold step, collect. rewrite He, String.eqb_refl. simpl.
  by rewrite Hh, Hr, Hd.
Qed.

(** The scenario of the specification: three items, [next] three times. *)
Example three_items :
  index (run "U1" None (start ["a"; "b"; "c"]) [Click "U1" "next"]) = 1%Z
  ∧ index (run "U1" None (start ["a"; "b"; "c"])
             [Click "U1" "next"; Click "U1" "next"]) = 2%Z
  ∧ index (run "U1" None (start ["a"; "b"; "c"])
             [Click "U1" "next"; Click "U1" "next"; Click "U1" "next"]) = 2%Z
  ∧ index (run "U1" None (start ["a"; "b"; "c"]) [Click "U2" "next"]) = 0%Z.
Proof. repeat split. Qed.

(** C3, as the specification states it, fails on the code: the handler
    reports the click as handled and asks for an early stop, without a
    replacement list; the stop request is only read inside the branch of the
    replacement list, and the session stays live. *)
Lemma stop_request_without_items_ignored :
  let s := start ["a"; "b"] in
  step "U1" (Some stop_only) s (Click "U1" "close") = (s, [render s])
  ∧ ended (step "U1" (Some stop_only) s (Click "U1" "close")).1 = false.
Proof. split; reflexivity. Qed.

(** C3 (amended). For a live session and a click of its owner that the
    custom handler reports as handled: when the handler supplies a
    replacement list, and that list is empty or the handler asks for an early
    stop, the collector is stopped, the session has ended, and no later input
    changes it or has any effect; when it supplies a non-empty replacement
    list and does not ask for a stop, the session stays live with that list.
    A stop request is read only together with a replacement list: without
    one, the session is left as it is. *)
Theorem custom_action_ends_session {T : Type} (owner : string)
    (options : option (PaginatedEmbedOptions T))
    (handler : string → Z → list T → outcome (CustomResult T))
    (s : Session T) (action : string) (result : CustomResult T) :
  ended s = false →
  options ≫= onCustomButton = Some handler →
  handler action (index s) (items s) = Returns result →
  handled result = true →
  let after := step owner options s (Click owner action) in
  (∀ l, newItems result = Some l →
        l = [] ∨ stopCollector result = Some true →
        ended after.1 = true ∧ after.2 = [CollectorStopped; ControlsCleared]
        ∧ items after.1 = l
        ∧ (∀ input, step owner options after.1 input = (after.1, []))
        ∧ (∀ inputs, run owner options after.1 inputs = after.1))
  ∧ (∀ l, newItems result = Some l →
          l ≠ [] → stopCollector result ≠ Some true →
          ended after.1 = false ∧ items after.1 = l)
  ∧ (newItems result = None → after.1 = s).
Proof.
  intros He Hh Hr Hd after.
  assert (Hafter : after = apply_result s action result).
  { by apply step_handled with handler. }
  rewrite Hafter. unfold apply_result. split; [| split].
  - intros l Hl Hstop. rewrite Hl.
    assert (Hc : (total l =? 0)%Z || bool_decide (stopCollector result = Some true)
                 = true).
    { destruct Hstop as [-> | Hs]; [done |].
      rewrite (bool_decide_true _ Hs). apply orb_true_r. }
    rewrite Hc. simpl. do 3 (split; [done |]). split.
    + intros input. unfold step. reflexivity.
    + intros inputs. by apply run_ended.
  - intros l Hl Hne Hns. rewrite Hl.
    assert (Hc : (total l =? 0)%Z || bool_decide (stopCollector result = Some true)
                 = false).
    { rewrite (bool_decide_false _ Hns), orb_false_r. apply Z.eqb_neq.
      intros Hz. by apply total_zero in Hz. }
    rewrite Hc. simpl. done.
  - intros Hnone. by rewrite Hnone.
Qed.

(** The theorem at a session of two items whose owner clicks [delete]. *)
Lemma custom_action_ends_session_witness :
  let after := step "U1" (Some delete_first) (start ["a"; "b"]) (Click "U1" "delete") in
  ended after.1 = true ∧ after.2 = [CollectorStopped; ControlsCleared]
  ∧ items after.1 = ["b"]
  ∧ (∀ input, step "U1" (Some delete_first) after.1 input = (after.1, []))
  ∧ (∀ inputs, run "U1" (Some delete_first) after.1 inputs = after.1).
Proof.
  destruct (custom_action_ends_session "U1" (Some delete_first)
              (λ action _ l,
                 if String.eqb action "delete"
                 then Returns {| handled := true; newItems := Some (tail l);
                                 stopCollector := Some true |}
                 else Returns {| handled := false; newItems := None;
                                 stopCollector := None |})
              (start ["a"; "b"]) "delete"
              {| handled := true; newItems := Some ["b"]; stopCollector := Some true |}
              eq_refl eq_refl eq_refl eq_refl) as (Hend & _ & _).
  apply (Hend ["b"] eq_refl). right. reflexivity.
Defined.





End PaginatedEmbedSpec.

(** * The cooldown tracker: untracked commands, purge, negative durations *)

Module CooldownExtra.
Import Cooldown CooldownSpec.

(** X1. A command without cooldown (none configured, or zero) is never
    tracked: whatever the calls, each returns zero and the tracker stays as
    it was. *)
Theorem no_cooldown_never_tracks (cd : string → option Z) (ks : list call)
    (tr : Tracker) :
  Forall (λ k, cd (c_cmd k) = None ∨ cd (c_cmd k) = Some 0%Z) ks →
  run_calls cd tr ks = tr
  ∧ Forall (λ k, ∀ tr', checkCooldown (c_cmd k) (cd (c_cmd k)) (c_user k) (c_now k) tr'
                        = (0%Z, tr')) ks.
Proof.
  induction 1 as [|k ks Hk Hks [IHrun IHall]]; [by split |].
  assert (Hone : ∀ tr', checkCooldown (c_cmd k) (cd (c_cmd k)) (c_user k) (c_now k) tr'
                        = (0%Z, tr')).
  { intros tr'. by destruct Hk as [-> | ->]. }
  assert (Hstep : step cd tr k = tr) by (unfold step; by rewrite Hone).
  split.
  - change (run_calls cd tr (k :: ks)) with (run_calls cd (step cd tr k) ks).
    by rewrite Hstep.
  - by constructor.
Qed.

Lemma no_cooldown_never_tracks_witness :
  run_calls slow_cd ∅ [Call "ping" "U1" 10; Call "ping" "U1" 11; Call "ping" "U1" 12] = ∅.
Proof.
  apply (no_cooldown_never_tracks slow_cd
           [Call "ping" "U1" 10; Call "ping" "U1" 11; Call "ping" "U1" 12] ∅).
  repeat constructor.
Defined.

(** X2. A call with a positive cooldown leaves no expired entry behind for
    its command: every entry the command has afterwards, of any user, expires
    after the call. The unexpired entries of the other users are kept as
    they are, and the other commands are not touched. *)
Theorem call_purges_expired (c : string) (d : Z) (u : string) (now : Z) (tr : Tracker) :
  (0 < d)%Z →
  let tr' := (checkCooldown c (Some d) u now tr).2 in
  (∀ u' e, entry tr' c u' = Some e → (now < e)%Z)
  ∧ (∀ u' e, u' ≠ u → (now < e)%Z → entry tr c u' = Some e → entry tr' c u' = Some e)
  ∧ (∀ u' e, u' ≠ u → entry tr' c u' = Some e → entry tr c u' = Some e)
  ∧ (∀ c', c' ≠ c → tr' !! c' = tr !! c').
Proof.
  intros Hd tr'.
  assert (Hshape : ∃ m, tr' = <[c := m]> tr ∧
            (m = sweep now (default ∅ (tr !! c))
             ∨ m = <[u := (now + d)%Z]> (sweep now (default ∅ (tr !! c))))).
  { subst tr'. rewrite checkCooldown_own by lia.
    destruct (entry tr c u) as [e|]; repeat case_decide; simpl; eauto. }
  destruct Hshape as (m & -> & Hm).
  assert (Hother : ∀ u', u' ≠ u → m !! u' = sweep now (default ∅ (tr !! c)) !! u').
  { intros u' Hu'. destruct Hm as [-> | ->]; [done |]. by rewrite lookup_insert_ne. }
  split; [| split; [| split]].
  - intros u' e. rewrite entry_insert. destruct (decide (c = c)); [| done].
    destruct (decide (u' = u)) as [-> | Hu'].
    + destruct Hm as [-> | ->].
      * rewrite sweep_lookup. destruct (default ∅ (tr !! c) !! u) as [old|]; [| done].
        case_decide; [done |]. intros [= <-]. lia.
      * rewrite lookup_insert_eq. intros [= <-]. lia.
    + rewrite Hother, sweep_lookup by done.
      destruct (default ∅ (tr !! c) !! u') as [old|]; [| done].
      case_decide; [done |]. intros [= <-]. lia.
  - intros u' e Hu' Hlive He. rewrite entry_insert. destruct (decide (c = c)); [| done].
    rewrite Hother, sweep_lookup, <- entry_default, He by done.
    case_decide; [lia | done].
  - intros u' e Hu'. rewrite entry_insert. destruct (decide (c = c)); [| done].
    rewrite Hother, sweep_lookup, <- entry_default by done.
    destruct (entry tr c u') as [old|]; [| done]. by case_decide.
  - intros c' Hc'. by rewrite lookup_insert_ne.
Qed.

(** [U1] is granted at 1000; the call of [U2] at 2000 keeps the entry of
    [U1]. *)
Lemma call_purges_expired_witness :
  entry (checkCooldown "slow" (Some 5000%Z) "U2" 2000
           (checkCooldown "slow" (Some 5000%Z) "U1" 1000 ∅).2).2 "slow" "U1"
  = Some 6000%Z.
Proof.
  destruct (call_purges_expired "slow" 5000 "U2" 2000
              (checkCooldown "slow" (Some 5000%Z) "U1" 1000 ∅).2) as (_ & Hkept & _).
  - lia.
  - apply Hkept; [discriminate | lia | vm_compute; reflexivity].
Defined.

(** X3. A negative cooldown is truthy but never blocks: in every tracker the
    process can reach, a call for a command configured with a negative
    duration is granted, and the entry it writes has already expired. *)
Theorem negative_cooldown_never_blocks (cd : string → option Z) (cmd : string) (D : Z)
    (t : Z) (tr : Tracker) (u : string) (now : Z) :
  cd cmd = Some D → (D < 0)%Z → reachable cd t tr → (t ≤ now)%Z →
  (checkCooldown cmd (Some D) u now tr).1 = 0%Z
  ∧ entry (checkCooldown cmd (Some D) u now tr).2 cmd u = Some (now + D)%Z
  ∧ (now + D < now)%Z.
Proof.
  intros Hcd HD Hr Hnow.
  destruct (reachable_inv cd t tr Hr) as [_ Hinv].
  destruct (checkCooldown_granted cmd D u now tr) as [H1 H2]; [lia | |].
  - intros e He. destruct (Hinv _ _ _ He) as (d & Hd & Hb).
    assert (d = D) as -> by congruence. lia.
  - repeat split; [done | done | lia].
Qed.

(** A command configured with a cooldown of minus one second. *)
Lemma negative_cooldown_never_blocks_witness :
  (checkCooldown "odd" (Some (-1000)%Z) "U1" 50
     (checkCooldown "odd" (Some (-1000)%Z) "U1" 40 ∅).2).1 = 0%Z.
Proof.
  pose (cd := λ c : string, if String.eqb c "odd" then Some (-1000)%Z else None).
  apply (negative_cooldown_never_blocks cd "odd" (-1000) 40
           (step cd ∅ (Call "odd" "U1" 40)) "U1" 50 eq_refl).
  - lia.
  - apply (reach_call cd 0 ∅ (Call "odd" "U1" 40)); [apply reach_start | simpl; lia].
  - lia.
Defined.

End CooldownExtra.

(** * Formatting: ordinal suffixes and durations *)

Module FormattingExtra.
Import Formatting Runtime.

(** X4. For every whole number from 0 to 110, so for every day of a month,
    [getDaySuffix] gives the suffix of the English ordinal; 111 is the first
    number where it does not ([st] instead of [th]). *)
Theorem getDaySuffix_ordinal (n : Z) :
  ((0 ≤ n ≤ 110)%Z → getDaySuffix n = english_ordinal_suffix n)
  ∧ getDaySuffix 111 = "st" ∧ english_ordinal_suffix 111 = "th".
Proof.
  split; [| by split].
  intros Hn.
  assert (Hall : forallb (λ k, String.eqb (getDaySuffix (Z.of_nat k))
                                 (english_ordinal_suffix (Z.of_nat k)))
                         (seq 0 111) = true) by (vm_compute; reflexivity).
  rewrite forallb_forall in Hall.
  specialize (Hall (Z.to_nat n)). rewrite Z2Nat.id in Hall by lia.
  apply String.eqb_eq, Hall, in_seq. lia.
Qed.

Lemma getDaySuffix_ordinal_witness :
  getDaySuffix 23 = english_ordinal_suffix 23.
Proof. apply (getDaySuffix_ordinal 23). lia. Defined.

(** The parts [formatDuration] prints, for a duration that is not negative. *)
Lemma formatDuration_shape (ms : Z) :
  (0 ≤ ms)%Z →
  formatDuration ms
  = render_parts (ms / 1000 / 3600) (Z.rem (ms / 1000) 3600 / 60)
                 (Z.rem (Z.rem (ms / 1000) 3600) 60).
Proof.
  intros Hms.
  assert (Hq : (0 ≤ ms / 1000)%Z) by (apply Z.div_pos; lia).
  unfold formatDuration, render_parts. cbv zeta.
  set (h := (ms / 1000 / 3600)%Z).
  set (m := (Z.rem (ms / 1000) 3600 / 60)%Z).
  set (s := Z.rem (Z.rem (ms / 1000) 3600) 60).
  f_equal.
  destruct (h >? 0)%Z eqn:Hh, (m >? 0)%Z eqn:Hm; simpl;
    rewrite ?bool_decide_eq_false_2, ?bool_decide_eq_true_2 by done;
    rewrite ?orb_false_r, ?orb_true_r; try reflexivity.
  - destruct (s >? 0)%Z; simpl; [done |].
    destruct (h =? 0)%Z eqn:E; [| done]. apply Z.eqb_eq in E. lia.
  - destruct (s >? 0)%Z; simpl; [done |].
    assert (E : (h =? 0)%Z = false) by (apply Z.eqb_neq; lia). by rewrite E.
  - destruct (s >? 0)%Z; simpl; [done |].
    assert (E : (m =? 0)%Z = false) by (apply Z.eqb_neq; lia).
    by rewrite E, andb_false_r.
  - assert (E1 : (m =? 0)%Z = true).
    { apply Z.eqb_eq. subst m.
      pose proof (Z.rem_nonneg (ms / 1000) 3600 ltac:(lia) Hq).
      pose proof (Z.div_pos (Z.rem (ms / 1000) 3600) 60 ltac:(lia) ltac:(lia)). lia. }
    assert (E2 : (h =? 0)%Z = true).
    { apply Z.eqb_eq. subst h.
      pose proof (Z.div_pos (ms / 1000) 3600 Hq ltac:(lia)). lia. }
    by rewrite E1, E2, orb_true_r.
Qed.

Lemma formatDuration_subsecond (ms : Z) :
  (0 ≤ ms < 1000)%Z → formatDuration ms = "0s".
Proof.
  intros Hms. rewrite formatDuration_shape by lia.
  rewrite (Z.div_small ms 1000) by lia. reflexivity.
Qed.

(** X5. For a duration that is not negative, [formatDuration] prints hours,
    minutes below 60 and seconds below 60 that add up to the duration cut to
    whole seconds; a part that is zero is left out, but for the seconds when
    nothing else is printed. So every wait shorter than a second reads [0s]. *)
Theorem formatDuration_parts (ms : Z) :
  (0 ≤ ms)%Z →
  (∃ h m s, (0 ≤ h)%Z ∧ (0 ≤ m < 60)%Z ∧ (0 ≤ s < 60)%Z
            ∧ (h * 3600 + m * 60 + s = ms / 1000)%Z
            ∧ formatDuration ms = render_parts h m s)
  ∧ ((ms < 1000)%Z → formatDuration ms = "0s").
Proof.
  intros Hms.
  assert (Hq : (0 ≤ ms / 1000)%Z) by (apply Z.div_pos; lia).
  split; [| intros Hshort; apply formatDuration_subsecond; lia].
  rewrite formatDuration_shape by done.
  rewrite !Z.rem_mod_nonneg by (try apply Z.mod_pos_bound; lia).
  exists (ms / 1000 / 3600)%Z, ((ms / 1000) mod 3600 / 60)%Z,
         (((ms / 1000) mod 3600) mod 60)%Z.
  pose proof (Z.mod_pos_bound (ms / 1000) 3600 ltac:(lia)).
  pose proof (Z.mod_pos_bound ((ms / 1000) mod 3600) 60 ltac:(lia)).
  pose proof (Z.div_mod (ms / 1000) 3600 ltac:(lia)).
  pose proof (Z.div_mod ((ms / 1000) mod 3600) 60 ltac:(lia)).
  split; [apply Z.div_pos; lia |].
  split; [split; [apply Z.div_pos; lia | apply Z.div_lt_upper_bound; lia] |].
  split; [lia |]. split; [lia | reflexivity].
Qed.

Lemma formatDuration_parts_witness :
  formatDuration 999 = "0s".
Proof. apply (formatDuration_parts 999); lia. Defined.

End FormattingExtra.

(** * The command pipeline: validation order, logging, what can escape *)

Module PipelineExtra.
Import Runtime RuntimeSpec Pipeline Logger.

Lemma accepts_returns l level message scope logToConsole w :
  accepts l level →
  ∃ w2, log_opt l message level scope logToConsole w = (Returns tt, w2).
Proof.
  intros Hacc. destruct l as [lg|]; simpl; [| by eexists].
  specialize (Hacc lg eq_refl message scope logToConsole w).
  destruct (log lg message level scope logToConsole w) as [[[]|e] w2]; [| done].
  by eexists.
Qed.

Lemma TToolboxLogger_accepts levels level :
  is_Some (levels !! level ≫= truthy_string) →
  accepts (Some (TToolboxLogger levels)) level.
Proof.
  intros [colour Hc] lg [= <-] message scope logToConsole w. simpl. by rewrite Hc.
Qed.

Lemma TToolboxLogger_rejects levels level message scope logToConsole w :
  levels !! level ≫= truthy_string = None →
  log (TToolboxLogger levels) message level scope logToConsole w
  = (Throws (Error ("Unknown log level: " +:+ level)), w).
Proof. intros Hc. simpl. by rewrite Hc. Qed.

Lemma TToolboxLogger_writes levels level message scope logToConsole w :
  is_Some (levels !! level ≫= truthy_string) →
  log (TToolboxLogger levels) message level scope logToConsole w
  = (Returns tt, add_events [Log message level scope logToConsole] w).
Proof. intros [colour Hc]. simpl. by rewrite Hc. Qed.

Lemma on_error_typed l scope i err w e w' :
  accepts l "error" →
  on_error l scope i err w = (Throws e, w') →
  ∃ message reason, e = InteractionError message (i_id i) reason.
Proof.
  intros Hacc. unfold on_error.
  destruct (accepts_returns l "error" ("An Error occurred: " +:+ message_of err)
              scope true w Hacc) as [w2 Hlog].
  rewrite (bind_returns _ _ _ _ _ Hlog). apply safeReply_typed.
Qed.

(** X6. With a logger that takes error records (or no logger), and when
    what is thrown inside the [try] block is an error object (every [exn]
    is; a thrown [null] or [undefined] is left out), the only exception that
    can leave [Command.execute] is the [InteractionError] of a failed reply
    to this interaction: nothing thrown by the validation hooks, the handler
    or the info log gets out as it is. *)
Theorem execute_throws_only_reply_errors (c : Command) (i : Interaction)
    (w w' : World) (e : exn) :
  accepts (logger c) "error" →
  execute c i w = (Throws e, w') →
  ∃ message reason, e = InteractionError message (i_id i) reason.
Proof.
  intros Hacc Hthrow. unfold execute, safeExecute in Hthrow.
  apply try_catch_throws in Hthrow as (e0 & w0 & _ & Hcatch).
  by eapply on_error_typed.
Qed.

Lemma execute_throws_only_reply_errors_witness :
  ∃ message reason,
    (execute boom sample_interaction (world_at 1000 [Some "Unknown interaction"])).1
    = Throws (InteractionError message "I1" reason).
Proof.
  destruct (execute boom sample_interaction (world_at 1000 [Some "Unknown interaction"]))
    as [[[]|e] w'] eqn:Hrun.
  - vm_compute in Hrun. discriminate Hrun.
  - destruct (execute_throws_only_reply_errors boom sample_interaction
                (world_at 1000 [Some "Unknown interaction"]) w' e) as (m & r & ->).
    + apply TToolboxLogger_accepts. exists "red". vm_compute. reflexivity.
    + exact Hrun.
    + by exists m, r.
Defined.

(** X7. What can leave [SubcommandGroup.execute]: the [TypeError] of an
    interaction without subcommand, the [Unknown subcommand] error, and, when
    the group's logger takes error records, the [InteractionError] of a
    failed reply. Whatever the child's [execute] throws is caught by the
    group. *)
Theorem group_execute_throws (g : SubcommandGroup) (i : Interaction)
    (w w' : World) (e : exn) :
  accepts (g_logger g) "error" →
  group_execute g i w = (Throws e, w') →
  (i_subcommand i = None ∧ ∃ message, e = TypeError message)
  ∨ (∃ subcommandName, i_subcommand i = Some subcommandName
                        ∧ g_subcommands g !! subcommandName = None
                        ∧ e = Error ("Unknown subcommand: " +:+ subcommandName))
  ∨ (∃ subcommandName child message reason,
       i_subcommand i = Some subcommandName
       ∧ g_subcommands g !! subcommandName = Some child
       ∧ e = InteractionError message (i_id i) reason).
Proof.
  intros Hacc. unfold group_execute.
  destruct (i_subcommand i) as [sub|]; [| intros [= <- _]; left; eauto].
  destruct (g_subcommands g !! sub) as [child|] eqn:Hchild;
    [| intros [= <- _]; right; left; eauto].
  intros Hthrow. right. right. exists sub, child.
  unfold group_safeExecute in Hthrow.
  apply try_catch_throws in Hthrow as (e0 & w0 & _ & Hcatch).
  destruct (accepts_returns (g_logger g) "error" ("An Error occured" +:+ toString e0)
              (name child +:+ "_EXECUTION") true w0 Hacc) as [w2 Hlog].
  rewrite (bind_returns _ _ _ _ _ Hlog) in Hcatch.
  apply safeReply_typed in Hcatch as (m & r & ->). eauto.
Qed.

Lemma group_execute_throws_witness :
  ∃ subcommandName, i_subcommand kick_interaction = Some subcommandName
    ∧ (group_execute admin_group kick_interaction (world_at 1000 [])).1
      = Throws (Error ("Unknown subcommand: " +:+ subcommandName)).
Proof.
  destruct (group_execute admin_group kick_interaction (world_at 1000 []))
    as [[[]|e] w'] eqn:Hrun.
  - vm_compute in Hrun. discriminate Hrun.
  - destruct (group_execute_throws admin_group kick_interaction (world_at 1000 []) w' e)
      as [[Hnone _] | [(sub & Hsel & _ & ->) | (sub & child & m & r & Hsel & Hchild & _)]].
    + intros lg Hlg. discriminate Hlg.
    + exact Hrun.
    + discriminate Hnone.
    + by exists sub.
    + simpl in Hsel. injection Hsel as <-. vm_compute in Hchild. discriminate Hchild.
Defined.

(** X8. A guild-only command used outside a guild is refused before anything
    else happens: [validate] returns the refusal with the world untouched (no
    cooldown is spent), and [execute] is the same whatever the validation
    hook and the handler are, since neither is called. *)
Theorem guild_only_refused_first (c : Command) (i : Interaction) (w : World) :
  guildOnly c = true →
  i_guildId i ≫= truthy_string = None →
  validate c i w = (Returns (Some "This command can only be used in a server."), w)
  ∧ execute_body c i w
    = safeReply i "This command can only be used in a server." true None None None w
  ∧ (∀ v r, execute (with_run r (with_validation v c)) i w = execute c i w).
Proof.
  intros Hg Hi.
  assert (Hv : ∀ c', guildOnly c' = true →
            validate c' i w
            = (Returns (Some "This command can only be used in a server."), w)).
  { intros c' Hg'. unfold validate. rewrite Hg', Hi. reflexivity. }
  assert (Hb : ∀ c', guildOnly c' = true →
            execute_body c' i w
            = safeReply i "This command can only be used in a server." true
                None None None w).
  { intros c' Hg'. unfold execute_body. by rewrite (bind_returns _ _ _ _ _ (Hv c' Hg')). }
  split; [by apply Hv |]. split; [by apply Hb |].
  intros v r. unfold execute, safeExecute, try_catch, bind. simpl.
  rewrite (Hb c Hg), (Hb (with_run r (with_validation v c))) by done. reflexivity.
Qed.

Lemma guild_only_refused_first_witness :
  tracker (execute slow sample_interaction (world_at 1000 [])).2 = ∅
  ∧ trace (execute slow sample_interaction (world_at 1000 [])).2
    = [Reply "I1" {| p_content := Some "This command can only be used in a server.";
                     p_ephemeral := true; p_embeds := None; p_components := None;
                     p_files := None |};
       FetchReply "I1"].
Proof.
  destruct (guild_only_refused_first slow sample_interaction (world_at 1000 [])
              eq_refl eq_refl) as (_ & Hbody & _).
  unfold execute, safeExecute, try_catch, bind. rewrite Hbody.
  vm_compute. split; reflexivity.
Defined.

(** X9. The cooldown is spent before the custom validation runs: for a user
    with no unexpired entry, [validate] writes the entry [now + D] and only
    then calls [additionalValidation], in the world with that entry. A user
    the hook turns away has still used up the cooldown. *)
Theorem cooldown_spent_before_hook (c : Command) (i : Interaction) (w : World) (D : Z) :
  guild_ok c i →
  cooldown c = Some D → D ≠ 0%Z →
  (∀ e, Cooldown.entry (tracker w) (name c) (i_userId i) = Some e → (e ≤ now w)%Z) →
  let spent := (Cooldown.checkCooldown (name c) (Some D) (i_userId i) (now w)
                  (tracker w)).2 in
  validate c i w = additionalValidation c i (set_tracker spent w)
  ∧ Cooldown.entry spent (name c) (i_userId i) = Some (now w + D)%Z.
Proof.
  intros Hguild Hcd HD Hexp spent.
  destruct (CooldownSpec.checkCooldown_granted (name c) D (i_userId i) (now w)
              (tracker w) HD Hexp) as [Hzero Hentry].
  split; [| exact Hentry].
  unfold validate.
  assert (Hgate : guildOnly c
                  && negb (bool_decide (is_Some (i_guildId i ≫= truthy_string)))
                  = false).
  { destruct Hguild as [-> | Hsome]; [done |].
    rewrite (bool_decide_eq_true_2 _ Hsome). apply andb_false_r. }
  rewrite Hgate. unfold bind, checkCooldown. rewrite Hcd, Hzero. reflexivity.
Qed.

(** The hook turns the user away, and the entry is there. *)
Lemma cooldown_spent_before_hook_witness :
  let picky := with_validation (λ _, ret (Some "You have opted out.")) slow in
  (validate picky guild_interaction (world_at 1000 [])).1
  = Returns (Some "You have opted out.")
  ∧ Cooldown.entry (tracker (validate picky guild_interaction (world_at 1000 [])).2)
      "slow" "U1" = Some 6000%Z.
Proof.
  intros picky.
  destruct (cooldown_spent_before_hook picky guild_interaction (world_at 1000 []) 5000)
    as [Hv He].
  - right. by eexists.
  - reflexivity.
  - lia.
  - intros e H. vm_compute in H. discriminate H.
  - rewrite Hv. split; [reflexivity |]. exact He.
Defined.

(** X10. A user on cooldown is told how long to wait, in the format of
    [formatDuration], and nothing else runs: [validate] returns the message
    without calling [additionalValidation]. With less than a second left,
    the message says to wait [0s]. *)
Theorem cooldown_blocks_with_wait (c : Command) (i : Interaction) (w : World) (D e : Z) :
  guild_ok c i →
  cooldown c = Some D → D ≠ 0%Z →
  Cooldown.entry (tracker w) (name c) (i_userId i) = Some e →
  (0 ≤ now w < e)%Z →
  let blocked := (Cooldown.checkCooldown (name c) (Some D) (i_userId i) (now w)
                    (tracker w)).2 in
  validate c i w
  = (Returns (Some ("You need to wait " +:+ formatDuration (e - now w)
                    +:+ " before using this command again.")),
     set_tracker blocked w)
  ∧ Cooldown.entry blocked (name c) (i_userId i) = Some e
  ∧ ((e - now w < 1000)%Z →
     (validate c i w).1
     = Returns (Some "You need to wait 0s before using this command again.")).
Proof.
  intros Hguild Hcd HD He Hnow blocked.
  destruct (CooldownSpec.checkCooldown_denied (name c) D (i_userId i) (now w)
              (tracker w) e HD He) as [Hwait Hentry]; [lia | lia |].
  assert (Hgate : guildOnly c
                  && negb (bool_decide (is_Some (i_guildId i ≫= truthy_string)))
                  = false).
  { destruct Hguild as [-> | Hsome]; [done |].
    rewrite (bool_decide_eq_true_2 _ Hsome). apply andb_false_r. }
  assert (Hv : validate c i w
               = (Returns (Some ("You need to wait " +:+ formatDuration (e - now w)
                                 +:+ " before using this command again.")),
                  set_tracker blocked w)).
  { unfold validate. rewrite Hgate. unfold bind, checkCooldown. rewrite Hcd, Hwait.
    destruct (Z.gtb_spec (e - now w) 0); [reflexivity | lia]. }
  split; [exact Hv |]. split; [exact Hentry |].
  intros Hshort. rewrite Hv. simpl.
  by rewrite (FormattingExtra.formatDuration_subsecond (e - now w)) by lia.
Qed.

Lemma cooldown_blocks_with_wait_witness :
  let w1 := (validate slow guild_interaction (world_at 1000 [])).2 in
  let w2 := {| now := 5500; tracker := tracker w1; replied := ∅; deferred := ∅;
               platform := []; trace := [] |} in
  (validate slow guild_interaction w2).1
  = Returns (Some "You need to wait 0s before using this command again.").
Proof.
  intros w1 w2.
  destruct (cooldown_blocks_with_wait slow guild_interaction w2 5000 6000)
    as (_ & _ & Hshort).
  - right. by eexists.
  - reflexivity.
  - lia.
  - vm_compute. reflexivity.
  - simpl. lia.
  - apply Hshort. simpl. lia.
Defined.

End PipelineExtra.

(** * The file logger: its table of levels, and what a missing level does *)

Module LoggerExtra.
Import Runtime RuntimeSpec Pipeline Logger PipelineExtra.

(** X11. The table of levels of a logger is never empty, and [rotate()]
    hands it over unchanged: the logger made from the rotated options has
    the same levels as the one it was rotated from. *)
Theorem rotate_keeps_levels (options : LoggerOptions) (dir fileName : string) :
  constructor_levels options ≠ ∅
  ∧ constructor_levels (rotate_options dir fileName (constructor_levels options))
    = constructor_levels options.
Proof.
  assert (Hne : constructor_levels options ≠ ∅).
  { unfold constructor_levels. cbv zeta.
    destruct (default true (extendDefaultLevels options)).
    - intros Hempty.
      assert (Hl : (default ∅ (customLevels options) ∪ DEFAULT_LEVELS) !! "info" = None)
        by (by rewrite Hempty).
      apply lookup_union_None in Hl as [_ Hd]. vm_compute in Hd. discriminate Hd.
    - case_bool_decide as Hc; [| done].
      intros Hempty.
      assert (Hl : DEFAULT_LEVELS !! "info" = None) by (by rewrite Hempty).
      vm_compute in Hl. discriminate Hl. }
  split; [exact Hne |].
  unfold constructor_levels at 1. simpl.
  by rewrite bool_decide_eq_false_2.
Qed.

(** X12. With the default levels extended (the default), a record of level
    [info], [warn] or [error], or of a custom level, is written and nothing
    is thrown, as long as the colours of the custom table are not empty
    strings; a custom entry with an empty colour, also for a default level,
    makes every record of that level throw [Unknown log level]. *)
Theorem extended_levels_logged (options : LoggerOptions) (level : string) :
  extendDefaultLevels options ≠ Some false →
  let custom := default ∅ (customLevels options) in
  (coloured custom →
   level = "info" ∨ level = "warn" ∨ level = "error" ∨ is_Some (custom !! level) →
   ∀ message scope logToConsole w,
     log (new_logger options) message level scope logToConsole w
     = (Returns tt, add_events [Log message level scope logToConsole] w))
  ∧ (custom !! level = Some EmptyString →
     ∀ message scope logToConsole w,
       log (new_logger options) message level scope logToConsole w
       = (Throws (Error ("Unknown log level: " +:+ level)), w)).
Proof.
  intros Hext custom.
  assert (Hlevels : constructor_levels options = custom ∪ DEFAULT_LEVELS).
  { unfold constructor_levels. fold custom.
    destruct (extendDefaultLevels options) as [[|]|]; simpl; done. }
  unfold new_logger. rewrite Hlevels. split.
  - intros Hcol Hlevel message scope logToConsole w.
    apply TToolboxLogger_writes.
    destruct (custom !! level) as [colour|] eqn:Hc.
    + rewrite (lookup_union_Some_l _ _ _ _ Hc). simpl. unfold truthy_string.
      destruct (String.eqb_spec colour EmptyString) as [-> | _]; [| by eexists].
      by destruct (Hcol level EmptyString Hc).
    + rewrite lookup_union_r by done.
      destruct Hlevel as [-> | [-> | [-> | [? ?]]]]; [| | | done];
        vm_compute; by eexists.
  - intros Hc message scope logToConsole w.
    apply TToolboxLogger_rejects.
    by rewrite (lookup_union_Some_l _ _ _ _ Hc).
Qed.

(** The default logger writes error records; a logger whose custom table
    blanks the colour of [error] throws on them. *)
Lemma extended_levels_logged_witness :
  (error (new_logger {| logDir := None; logFileName := None;
                        customLevels := Some debug_only;
                        extendDefaultLevels := None |})
         "disk full" "database" None (world_at 0 [])).1 = Returns tt
  ∧ (error (new_logger {| logDir := None; logFileName := None;
                          customLevels := Some {[ "error" := EmptyString ]};
                          extendDefaultLevels := None |})
           "disk full" "database" None (world_at 0 [])).1
    = Throws (Error ("Unknown log level: " +:+ "error")).
Proof.
  split.
  - destruct (extended_levels_logged
                {| logDir := None; logFileName := None;
                   customLevels := Some debug_only; extendDefaultLevels := None |}
                "error") as [Hok _]; [done |].
    unfold error. rewrite Hok; [reflexivity | | by right; right; left].
    intros level colour H. unfold debug_only in H. simpl in H.
    apply lookup_singleton_Some in H as [_ <-]. done.
  - destruct (extended_levels_logged
                {| logDir := None; logFileName := None;
                   customLevels := Some {[ "error" := EmptyString ]};
                   extendDefaultLevels := None |}
                "error") as [_ Hbad]; [done |].
    unfold error. rewrite Hbad; [reflexivity |]. simpl. apply lookup_singleton_eq.
Defined.

(** X13. A logger without the level [info] turns a successful execution
    into a failure: the info record thrown inside the [try] block is caught
    like an exception of the handler, so after the handler has returned the
    error path runs; when the logger has the level [error] and the reply goes
    through, the invoker of the command that succeeded is sent the generic
    failure message. *)
Theorem missing_info_level_fails_success (c : Command) (i : Interaction)
    (w w1 : World) (levels : gmap string string) :
  logger c = Some (TToolboxLogger levels) →
  levels !! "info" ≫= truthy_string = None →
  execute_body c i w = (Returns tt, w1) →
  execute c i w
  = on_error (logger c) (name c +:+ "_EXECUTION") i (Error "Unknown log level: info") w1
  ∧ (is_Some (levels !! "error" ≫= truthy_string) →
     (now w1 - i_createdTimestamp i ≤ threeMinutes)%Z → platform w1 = [] →
     ∃ w3, execute c i w = (Returns tt, w3)
           ∧ trace w3
             = trace w1
               ++ [Log "An Error occurred: Unknown log level: info" "error"
                       (name c +:+ "_EXECUTION") true]
               ++ delivery i {| p_content := Some "An unexpected error occurred.";
                                p_ephemeral := false; p_embeds := None;
                                p_components := None; p_files := None |} w1).
Proof.
  intros Hl Hinfo Hbody.
  assert (Hexec : execute c i w
                  = on_error (logger c) (name c +:+ "_EXECUTION") i
                      (Error "Unknown log level: info") w1).
  { unfold execute, safeExecute. apply try_catch_caught.
    rewrite (bind_returns _ _ _ _ _ Hbody), Hl. simpl. by rewrite Hinfo. }
  split; [exact Hexec |].
  intros Herr Hin Hcalm. rewrite Hexec. unfold on_error. rewrite Hl.
  unfold log_opt.
  rewrite (bind_returns _ _ _ _ _
             (TToolboxLogger_writes levels "error" _ _ true w1 Herr)).
  destruct (safeReply_delivered i generic_failure false None None None
              (add_events [Log ("An Error occurred: " +:+ "Unknown log level: info")
                               "error" (name c +:+ "_EXECUTION") true] w1))
    as (w3 & Hr & Ht); [done | done |].
  exists w3. split; [exact Hr |]. rewrite Ht. simpl. by rewrite <- app_assoc.
Qed.

(** [ping] with a logger that only knows [error]: the handler answers [Pong],
    and the invoker then gets the failure message. *)
Lemma missing_info_level_fails_success_witness :
  trace (execute (Runtime.setLogger (TToolboxLogger errors_only) Manager.ping)
           sample_interaction (world_at 1000 [])).2
  = [Reply "I1" {| p_content := Some "Pong"; p_ephemeral := false; p_embeds := None;
                   p_components := None; p_files := None |};
     FetchReply "I1";
     Log "An Error occurred: Unknown log level: info" "error" "ping_EXECUTION" true;
     FollowUp "I1" {| p_content := Some "An unexpected error occurred.";
                      p_ephemeral := false; p_embeds := None;
                      p_components := None; p_files := None |}].
Proof.
  destruct (execute_body (Runtime.setLogger (TToolboxLogger errors_only) Manager.ping)
              sample_interaction (world_at 1000 [])) as [[[]|e] w1] eqn:Hbody;
    [| vm_compute in Hbody; discriminate Hbody].
  destruct (missing_info_level_fails_success
              (Runtime.setLogger (TToolboxLogger errors_only) Manager.ping)
              sample_interaction (world_at 1000 []) w1 errors_only
              eq_refl eq_refl Hbody) as [_ Hsent].
  vm_compute in Hbody. injection Hbody as <-.
  destruct Hsent as (w3 & Hexec & Htrace).
  - exists "red". vm_compute. reflexivity.
  - vm_compute. intros H. discriminate H.
  - reflexivity.
  - rewrite Hexec. cbn [snd]. rewrite Htrace. vm_compute. reflexivity.
Defined.

(** X14. A logger without the level [error] silences the failure path: when
    the handler (or the validation) throws an error object [e] (a thrown
    [null] or [undefined] is left out), the error record cannot be written,
    the exception of the logger leaves [execute] in place of the handler's,
    and no reply is attempted; the invoker is left without an answer. *)
Theorem missing_error_level_no_reply (c : Command) (i : Interaction)
    (w w1 : World) (levels : gmap string string) (e : exn) :
  logger c = Some (TToolboxLogger levels) →
  levels !! "error" ≫= truthy_string = None →
  execute_body c i w = (Throws e, w1) →
  execute c i w = (Throws (Error "Unknown log level: error"), w1).
Proof.
  intros Hl Herr Hbody. unfold execute.
  rewrite (safeExecute_caught _ _ _ _ _ _ _ Hbody).
  unfold on_error. rewrite Hl. apply bind_throws. simpl. by rewrite Herr.
Qed.

Lemma missing_error_level_no_reply_witness :
  execute (Runtime.setLogger (TToolboxLogger debug_only) boom) sample_interaction
    (world_at 1000 [])
  = (Throws (Error "Unknown log level: error"), world_at 1000 []).
Proof.
  apply (missing_error_level_no_reply
           (Runtime.setLogger (TToolboxLogger debug_only) boom) sample_interaction
           (world_at 1000 []) (world_at 1000 []) debug_only
           (Error "connection to db-7 refused")); reflexivity.
Defined.

(** X15. A group logs a success whenever its child's [execute] returns, and
    the child's [execute] returns also when the child's handler threw and was
    answered with the failure message: the group then writes the info record
    of an executed command for a command that failed. *)
Theorem group_logs_success_when_child_returns (g : SubcommandGroup) (i : Interaction)
    (w w1 : World) (subcommandName : string) (child : Command)
    (levels : gmap string string) :
  i_subcommand i = Some subcommandName →
  g_subcommands g !! subcommandName = Some child →
  g_logger g = Some (TToolboxLogger levels) →
  is_Some (levels !! "info" ≫= truthy_string) →
  execute child i w = (Returns tt, w1) →
  group_execute g i w
  = (Returns tt,
     add_events [Log (executed_message (g_name g) i) "info"
                     (name child +:+ "_EXECUTION") false] w1).
Proof.
  intros Hsel Hchild Hl Hinfo Hexec. unfold group_execute.
  rewrite Hsel, Hchild. unfold group_safeExecute, try_catch.
  rewrite (bind_returns _ _ _ _ _ Hexec), Hl. unfold log_opt.
  by rewrite (TToolboxLogger_writes levels "info" _ _ false w1 Hinfo).
Qed.

(** The group [admin] with the failing child [boom] and the default logger. *)
Lemma group_logs_success_when_child_returns_witness :
  let g := {| g_name := "admin"; g_description := "Administration";
              g_subcommands := {[ "boom" := boom ]};
              g_logger := Some (TToolboxLogger DEFAULT_LEVELS) |} in
  let i := {| i_id := "I5"; i_createdTimestamp := 0; i_userId := "U1";
              i_guildId := Some "G1"; i_subcommand := Some "boom" |} in
  trace (group_execute g i (world_at 1000 [])).2
  = [Log "An Error occurred: connection to db-7 refused" "error" "boom_EXECUTION" true;
     Reply "I5" {| p_content := Some "An unexpected error occurred.";
                   p_ephemeral := false; p_embeds := None;
                   p_components := None; p_files := None |};
     FetchReply "I5";
     Log "admin (boom) command executed" "info" "boom_EXECUTION" false].
Proof.
  intros g i.
  destruct (execute boom i (world_at 1000 [])) as [[[]|e] w1] eqn:Hexec;
    [| vm_compute in Hexec; discriminate Hexec].
  rewrite (group_logs_success_when_child_returns g i (world_at 1000 []) w1 "boom" boom
             DEFAULT_LEVELS eq_refl eq_refl eq_refl
             ltac:(exists "cyan"; vm_compute; reflexivity) Hexec).
  vm_compute in Hexec. injection Hexec as <-.
  vm_compute. reflexivity.
Defined.

End LoggerExtra.

(** * Help pages: termination, page sizes, headers *)

Module HelpExtra.
Import Help.

Section Pages.
Variable toUpperCase : string → string.

Lemma collect_entries n sorted : ∀ acc,
  foldl (collect_entry toUpperCase n) acc sorted
  = (acc.1 ++ group_pages toUpperCase sorted,
     foldl (add_command n) acc.2 (command_lines sorted)).
Proof.
  induction sorted as [|e sorted IH]; intros [gp oc]; simpl.
  - by rewrite app_nil_r.
  - rewrite IH. destruct e as [name d subs | name d]; simpl.
    + by rewrite <- app_assoc.
    + reflexivity.
Qed.

Lemma add_commands_length n lines : ∀ oc,
  length (foldl (add_command n) oc lines) ≤ length oc + 2 * length lines.
Proof.
  induction lines as [|l lines IH]; intros oc; simpl; [lia |].
  etrans; [apply IH |]. unfold add_command.
  destruct (page_starts (length oc) n); rewrite !length_app; simpl; lia.
Qed.

Lemma add_commands_nonempty n lines oc :
  lines ≠ [] → foldl (add_command n) oc lines ≠ [].
Proof.
  destruct lines as [|l lines]; [done |]. intros _. simpl.
  assert (H : ∀ ls acc, acc ≠ [] → foldl (add_command n) acc ls ≠ []).
  { induction ls as [|l' ls IH]; intros acc Hacc; simpl; [done |].
    apply IH. unfold add_command. by destruct (_ ++ [l']) eqn:E;
      [apply app_eq_nil in E as [_ E] |]. }
  apply H. unfold add_command. intros E. by apply app_eq_nil in E as [_ E].
Qed.

Lemma command_lines_length sorted : length (command_lines sorted) ≤ length sorted.
Proof.
  induction sorted as [|[name d subs | name d] sorted IH]; simpl; lia.
Qed.

(** The loop of [splice] ends when the count is at least one, and cuts the
    list in consecutive pieces. *)
Lemma split_pages_chunks (k : nat) fuel : ∀ oc acc,
  1 ≤ k → length oc ≤ fuel →
  ∃ pages,
    split_pages fuel (Z.of_nat k) oc acc = Some (acc ++ pages)
    ∧ concat pages = oc
    ∧ (∀ j page, pages !! j = Some page →
         page = take k (drop (j * k) oc) ∧ j * k < length oc).
Proof.
  induction fuel as [|fuel IH]; intros oc acc Hk Hlen.
  - destruct oc; [| simpl in Hlen; lia].
    exists []. simpl. rewrite app_nil_r. split; [done |]. split; [done |].
    intros j page H. done.
  - destruct oc as [|x oc].
    { exists []. simpl. rewrite app_nil_r. split; [done |]. split; [done |].
      intros j page H. done. }
    simpl. unfold splice0. rewrite Nat2Z.id. cbn [fst snd].
    destruct (IH (drop k (x :: oc)) (acc ++ [take k (x :: oc)]) Hk) as
      (pages & Hrun & Hcat & Hpos).
    { rewrite length_drop. simpl in *. lia. }
    exists (take k (x :: oc) :: pages). split; [| split].
    + rewrite Hrun. by rewrite <- app_assoc.
    + simpl. rewrite Hcat. apply take_drop.
    + intros [|j] page Hj; simpl in Hj.
      * injection Hj as <-. split; [done |]. cbn [length]. lia.
      * destruct (Hpos j page Hj) as [-> Hlt]. rewrite length_drop in Hlt.
        split; [| simpl in *; lia].
        rewrite drop_drop. repeat f_equal; lia.
Qed.

(** With a count that is zero or negative, [splice] removes nothing and the
    loop goes on for ever. *)
Lemma split_pages_stuck n fuel : ∀ oc acc,
  (n ≤ 0)%Z → oc ≠ [] → split_pages fuel n oc acc = None.
Proof.
  induction fuel as [|fuel IH]; intros oc acc Hn Hne;
    destruct oc as [|x oc]; try done.
  simpl. unfold splice0. replace (Z.to_nat n) with 0 by lia. simpl.
  by apply IH.
Qed.

Lemma command_line_not_header name description :
  command_line name description ≠ other_header.
Proof.
  unfold command_line, other_header. intros H. injection H as Hname _.
  vm_compute in Hname. discriminate Hname.
Qed.

Lemma command_lines_not_header sorted :
  Forall (λ l, l ≠ other_header) (command_lines sorted).
Proof.
  induction sorted as [|[name d subs | name d] sorted IH]; simpl; [done | done |].
  constructor; [apply command_line_not_header | done].
Qed.

(** With pages of two lines or more, the positions that start a page hold
    the header, and the other lines are the commands, in order. *)
Lemma add_commands_headers (k : nat) lines : ∀ oc,
  2 ≤ k →
  Forall (λ l, l ≠ other_header) lines →
  (∀ j, j < length oc → j `mod` k = 0 → oc !! j = Some other_header) →
  (∀ j, j < length (foldl (add_command (Z.of_nat k)) oc lines) → j `mod` k = 0 →
        foldl (add_command (Z.of_nat k)) oc lines !! j = Some other_header)
  ∧ without_header (foldl (add_command (Z.of_nat k)) oc lines)
    = without_header oc ++ lines.
Proof.
  induction lines as [|l lines IH]; intros oc Hk Hlines Hinv; simpl.
  - split; [done |]. by rewrite app_nil_r.
  - apply Forall_cons in Hlines as [Hl Hlines].
    assert (Hstart : page_starts (length oc) (Z.of_nat k)
                     = bool_decide (length oc `mod` k = 0)).
    { unfold page_starts.
      destruct (Z.eqb_spec (Z.of_nat k) 0); [lia |].
      rewrite Z.rem_mod_nonneg by lia. rewrite <- Nat2Z.inj_mod.
      destruct (Z.eqb_spec (Z.of_nat (length oc `mod` k)) 0);
        [rewrite bool_decide_eq_true_2 by lia | rewrite bool_decide_eq_false_2 by lia];
        done. }
    destruct (IH (add_command (Z.of_nat k) oc l) Hk Hlines) as [Hpos Hfilter].
    + unfold add_command. rewrite Hstart.
      intros j Hj Hmod. case_bool_decide as Hlen.
      * rewrite !length_app in Hj. simpl in Hj.
        destruct (decide (j < length oc)) as [Hlt | Hge].
        { rewrite <- app_assoc, lookup_app_l by done. by apply Hinv. }
        destruct (decide (j = length oc)) as [-> | Hne].
        { rewrite lookup_app_l by (rewrite length_app; simpl; lia).
          rewrite lookup_app_r by lia. by rewrite Nat.sub_diag. }
        assert (j = S (length oc)) as -> by lia.
        exfalso. replace (S (length oc)) with (1 + length oc) in Hmod by lia.
        rewrite Nat.Div0.add_mod, Hlen, Nat.add_0_r in Hmod.
        rewrite Nat.Div0.mod_mod in Hmod.
        rewrite Nat.mod_small in Hmod by lia. lia.
      * rewrite length_app in Hj. simpl in Hj.
        destruct (decide (j < length oc)) as [Hlt | Hge].
        { rewrite lookup_app_l by done. by apply Hinv. }
        assert (j = length oc) as -> by lia. done.
    + split; [exact Hpos |]. rewrite Hfilter. unfold add_command, without_header.
      destruct (page_starts (length oc) (Z.of_nat k)).
      * rewrite !filter_app. rewrite (filter_cons_True _ l) by done.
        rewrite filter_cons_False by (intros H; by apply H).
        rewrite !filter_nil. simpl. by rewrite <- !app_assoc.
      * rewrite !filter_app. rewrite (filter_cons_True _ l) by done.
        rewrite !filter_nil. by rewrite <- !app_assoc.
Qed.

Lemma add_commands_without_header n lines : ∀ oc,
  Forall (λ l, l ≠ other_header) lines →
  without_header (foldl (add_command n) oc lines) = without_header oc ++ lines.
Proof.
  induction lines as [|l lines IH]; intros oc Hlines; simpl.
  - by rewrite app_nil_r.
  - apply Forall_cons in Hlines as [Hl Hlines]. rewrite IH by done.
    unfold add_command, without_header.
    destruct (page_starts (length oc) n).
    + rewrite !filter_app. rewrite (filter_cons_True _ l) by done.
      rewrite filter_cons_False by (intros H; by apply H).
      rewrite !filter_nil. simpl. by rewrite <- !app_assoc.
    + rewrite !filter_app. rewrite (filter_cons_True _ l) by done.
      rewrite !filter_nil. by rewrite <- !app_assoc.
Qed.

(** What [getHelpPages] returns for a count of at least one, with enough
    fuel. *)
Lemma getHelpPages_chunks (k : nat) (cpp : option Z) sorted fuel :
  default 5%Z cpp = Z.of_nat k → 1 ≤ k → 2 * length sorted ≤ fuel →
  ∃ pages,
    getHelpPages toUpperCase fuel cpp sorted
    = Some (group_pages toUpperCase sorted ++ pages)
    ∧ concat pages = foldl (add_command (Z.of_nat k)) [] (command_lines sorted)
    ∧ (∀ j page, pages !! j = Some page →
         page = take k (drop (j * k) (concat pages)) ∧ j * k < length (concat pages)).
Proof.
  intros Hn Hk Hfuel. unfold getHelpPages. rewrite Hn. cbv zeta.
  rewrite collect_entries. cbn [fst snd]. rewrite app_nil_l.
  destruct (split_pages_chunks k fuel
              (foldl (add_command (Z.of_nat k)) [] (command_lines sorted))
              (group_pages toUpperCase sorted) Hk) as (pages & Hrun & Hcat & Hpos).
  { pose proof (add_commands_length (Z.of_nat k) (command_lines sorted) []).
    pose proof (command_lines_length sorted). simpl in *. lia. }
  exists pages. rewrite Hcat. done.
Qed.

(** X16. For a page size of at least one, [getHelpPages] ends (the loop needs
    at most two rounds per entry) and returns the pages of the groups first,
    in order, and then the pages of the ungrouped commands: none is empty,
    none is longer than the page size, all but the last are full, and apart
    from headers they hold every ungrouped command once, in order. *)
Theorem getHelpPages_pages (cpp : option Z) (sorted : list HelpEntry) (fuel : nat) :
  (1 ≤ default 5 cpp)%Z → 2 * length sorted ≤ fuel →
  ∃ pages,
    getHelpPages toUpperCase fuel cpp sorted
    = Some (group_pages toUpperCase sorted ++ pages)
    ∧ Forall (λ page, page ≠ [] ∧ (Z.of_nat (length page) ≤ default 5 cpp)%Z) pages
    ∧ (∀ j page, S j < length pages → pages !! j = Some page →
         Z.of_nat (length page) = default 5%Z cpp)
    ∧ without_header (concat pages) = command_lines sorted.
Proof.
  intros Hn Hfuel.
  destruct (getHelpPages_chunks (Z.to_nat (default 5%Z cpp)) cpp sorted fuel)
    as (pages & Hrun & Hcat & Hpos); [lia | lia | done |].
  set (k := Z.to_nat (default 5%Z cpp)) in *.
  assert (Hk : default 5%Z cpp = Z.of_nat k) by lia.
  exists pages. split; [exact Hrun |]. split; [| split].
  - apply Forall_lookup. intros j page Hj.
    destruct (Hpos j page Hj) as [Hpage Hlt]. split.
    + intros ->. symmetry in Hpage. apply (f_equal length) in Hpage.
      rewrite length_take, length_drop in Hpage. simpl in Hpage. lia.
    + rewrite Hpage, length_take. lia.
  - intros j page Hlast Hj.
    destruct (Hpos j page Hj) as [Hpage _].
    destruct (lookup_lt_is_Some_2 pages (S j) Hlast) as [next Hnext].
    destruct (Hpos (S j) next Hnext) as [_ Hlt].
    rewrite Hpage, length_take, length_drop. simpl in Hlt. lia.
  - rewrite Hcat, add_commands_without_header by apply command_lines_not_header.
    done.
Qed.

(** X17. For a page size of zero or less, [getHelpPages] does not return as
    soon as one ungrouped command is registered: [splice] then removes
    nothing, and the loop goes on whatever the number of rounds. *)
Theorem getHelpPages_never_ends (n : Z) (sorted : list HelpEntry) :
  (n ≤ 0)%Z → command_lines sorted ≠ [] →
  ∀ fuel, getHelpPages toUpperCase fuel (Some n) sorted = None.
Proof.
  intros Hn Hne fuel. unfold getHelpPages. simpl.
  rewrite collect_entries. cbn [fst snd].
  apply split_pages_stuck; [done |]. by apply add_commands_nonempty.
Qed.

(** X18. For a page size of two or more, every page of ungrouped commands
    starts with the header [OTHER], and so holds one command less than the
    page size at most. *)
Theorem getHelpPages_headers (cpp : option Z) (sorted : list HelpEntry) (fuel : nat) :
  (2 ≤ default 5 cpp)%Z → 2 * length sorted ≤ fuel →
  ∃ pages,
    getHelpPages toUpperCase fuel cpp sorted
    = Some (group_pages toUpperCase sorted ++ pages)
    ∧ Forall (λ page, head page = Some other_header
                      ∧ (Z.of_nat (length (without_header page))
                         ≤ default 5 cpp - 1)%Z) pages.
Proof.
  intros Hn Hfuel.
  destruct (getHelpPages_chunks (Z.to_nat (default 5%Z cpp)) cpp sorted fuel)
    as (pages & Hrun & Hcat & Hpos); [lia | lia | done |].
  set (k := Z.to_nat (default 5%Z cpp)) in *.
  exists pages. split; [exact Hrun |].
  destruct (add_commands_headers k (command_lines sorted) []) as [Hhead _];
    [lia | apply command_lines_not_header | intros j Hj; simpl in Hj; lia |].
  rewrite <- Hcat in Hhead.
  apply Forall_lookup. intros j page Hj.
  destruct (Hpos j page Hj) as [Hpage Hlt].
  assert (Hfirst : head page = Some other_header).
  { rewrite Hpage. rewrite <- (Hhead (j * k));
      [| done | by rewrite Nat.Div0.mod_mul].
    rewrite head_lookup, lookup_take_lt by lia.
    by rewrite lookup_drop, Nat.add_0_r. }
  split; [exact Hfirst |].
  destruct page as [|first rest]; [done |]. injection Hfirst as ->.
  unfold without_header. rewrite filter_cons_False by (intros H; by apply H).
  pose proof (length_filter (λ l, l ≠ other_header) rest).
  assert (length (other_header :: rest) ≤ k) by (rewrite Hpage, length_take; lia).
  simpl in *. lia.
Qed.

(** X19. With one line per page, the header takes a page of its own before
    every ungrouped command: [k] commands give [2 k] pages, each header
    alone on the page before its command. *)
Theorem getHelpPages_single (sorted : list HelpEntry) (fuel : nat) :
  2 * length sorted ≤ fuel →
  getHelpPages toUpperCase fuel (Some 1%Z) sorted
  = Some (group_pages toUpperCase sorted
          ++ flat_map (λ l, [[other_header]; [l]]) (command_lines sorted)).
Proof.
  intros Hfuel.
  destruct (getHelpPages_chunks 1 (Some 1%Z) sorted fuel)
    as (pages & Hrun & Hcat & Hpos); [done | lia | done |].
  rewrite Hrun. do 2 f_equal.
  assert (Hoc : ∀ lines oc,
            foldl (add_command 1) oc lines
            = oc ++ flat_map (λ l, [other_header; l]) lines).
  { induction lines as [|l lines IH]; intros oc; simpl; [by rewrite app_nil_r |].
    rewrite IH. unfold add_command, page_starts. simpl.
    rewrite Z.rem_1_r. simpl. by rewrite <- !app_assoc. }
  change (Z.of_nat 1) with 1%Z in Hcat. rewrite Hoc in Hcat. simpl in Hcat.
  assert (Hsingle : pages = map (λ l, [l]) (concat pages)).
  { apply list_eq. intros j. rewrite list_lookup_fmap.
    destruct (pages !! j) as [page|] eqn:Hj.
    - destruct (Hpos j page Hj) as [Hpage Hlt]. rewrite Nat.mul_1_r in Hpage, Hlt.
      destruct (lookup_lt_is_Some_2 _ _ Hlt) as [l Hl]. rewrite Hl. simpl.
      rewrite Hpage. f_equal.
      rewrite (drop_S _ l j Hl). simpl. by rewrite take_0.
    - destruct (concat pages !! j) as [l|] eqn:Hl; [| done]. exfalso.
      apply lookup_ge_None in Hj.
      assert (Hlen : length (concat pages) ≤ length pages).
      { clear -Hpos. assert (H : ∀ page, page ∈ pages → length page ≤ 1).
        { intros page [j Hj]%list_elem_of_lookup.
          destruct (Hpos j page Hj) as [-> _]. rewrite length_take. lia. }
        clear Hpos. induction pages as [|page pages IH]; simpl; [lia |].
        rewrite length_app.
        pose proof (H page ltac:(left)).
        pose proof (IH ltac:(intros q Hq; apply H; by right)). lia. }
      apply lookup_lt_Some in Hl. lia. }
  rewrite Hsingle, Hcat.
  clear. induction (command_lines sorted) as [|l lines IH]; simpl; [done |].
  by rewrite IH.
Qed.

End Pages.

Lemma getHelpPages_pages_witness :
  ∃ pages,
    getHelpPages (λ s, s) 8 None sample_help
    = Some (group_pages (λ s, s) sample_help ++ pages)
    ∧ without_header (concat pages) = command_lines sample_help.
Proof.
  destruct (getHelpPages_pages (λ s, s) None sample_help 8) as (pages & Hrun & _ & _ & Hc).
  - simpl. lia.
  - simpl. lia.
  - by exists pages.
Defined.

Lemma getHelpPages_never_ends_witness :
  getHelpPages (λ s, s) 1000 (Some 0%Z) sample_help = None.
Proof.
  apply (getHelpPages_never_ends (λ s, s) 0 sample_help); [lia | discriminate].
Defined.

Lemma getHelpPages_headers_witness :
  ∃ pages,
    getHelpPages (λ s, s) 8 (Some 2%Z) sample_help
    = Some (group_pages (λ s, s) sample_help ++ pages)
    ∧ Forall (λ page, head page = Some other_header) pages.
Proof.
  destruct (getHelpPages_headers (λ s, s) (Some 2%Z) sample_help 8)
    as (pages & Hrun & Hall).
  - simpl. lia.
  - simpl. lia.
  - exists pages. split; [exact Hrun |].
    eapply Forall_impl; [exact Hall |]. by intros page [H _].
Defined.

Lemma getHelpPages_single_witness :
  getHelpPages (λ s, s) 8 (Some 1%Z) sample_help
  = Some (group_pages (λ s, s) sample_help
          ++ flat_map (λ l, [[other_header]; [l]]) (command_lines sample_help)).
Proof.
  apply (getHelpPages_single (λ s, s) sample_help 8). simpl. lia.
Defined.

End HelpExtra.

(** * The command manager: registration, loggers, removal *)

Module ManagerExtra.
Import Runtime RuntimeSpec Manager.

Lemma entry_setLogger_name l e : entry_name (entry_setLogger l e) = entry_name e.
Proof. by destruct e. Qed.

Lemma register_get m e commandName :
  get (register e m) commandName
  = if decide (entry_name e = commandName) then Some (stored m e) else get m commandName.
Proof.
  unfold get, register, stored. simpl. rewrite lookup_insert.
  case_decide; [| done]. by destruct (m_logger m).
Qed.

Lemma registerMultiple_snoc cs e m :
  registerMultiple (cs ++ [e]) m = register e (registerMultiple cs m).
Proof. unfold registerMultiple. by rewrite foldl_app. Qed.

Lemma registerMultiple_logger cs : ∀ m, m_logger (registerMultiple cs m) = m_logger m.
Proof.
  induction cs as [|e cs IH]; intros m; [done |].
  change (registerMultiple (e :: cs) m) with (registerMultiple cs (register e m)).
  by rewrite IH.
Qed.

(** X20. [registerMultiple] replaces on conflict, and the last one wins: after
    registering a list, a name resolves to the last entry of the list with
    that name, stored with the manager's logger when it has one, and a name
    that is not in the list resolves as before. *)
Theorem registerMultiple_last_wins (cs : list Entry) (m : CommandManager)
    (commandName : string) :
  get (registerMultiple cs m) commandName
  = match last (filter (λ e, entry_name e = commandName) cs) with
    | Some e => Some (stored m e)
    | None => get m commandName
    end.
Proof.
  induction cs as [|e cs IH] using rev_ind; [done |].
  rewrite registerMultiple_snoc, register_get, filter_app.
  assert (Hstored : stored (registerMultiple cs m) e = stored m e).
  { unfold stored. by rewrite registerMultiple_logger. }
  case_decide as Hname.
  - rewrite filter_cons_True, filter_nil by done.
    by rewrite last_snoc, Hstored.
  - rewrite filter_cons_False, filter_nil, app_nil_r by done. exact IH.
Qed.

(** X21. [setLogger] of the manager reaches the registered entries and the
    entries registered later, and stops there: every entry, and every entry
    registered afterwards, carries the logger, while the children of a group
    are not touched and keep the logger they had, or none. *)
Theorem setLogger_reaches_entries_only (l : ILogger) (m : CommandManager) :
  m_logger (setLogger l m) = Some l
  ∧ (∀ commandName,
       get (setLogger l m) commandName = entry_setLogger l <$> get m commandName)
  ∧ (∀ commandName e, get (setLogger l m) commandName = Some e →
       entry_logger e = Some l
       ∧ ∃ e0, get m commandName = Some e0 ∧ children e = children e0
               ∧ entry_name e = entry_name e0)
  ∧ (∀ e, get (register e (setLogger l m)) (entry_name e) = Some (entry_setLogger l e)
          ∧ children (entry_setLogger l e) = children e).
Proof.
  split; [done |].
  assert (Hget : ∀ commandName,
            get (setLogger l m) commandName = entry_setLogger l <$> get m commandName).
  { intros commandName. unfold get, setLogger. simpl. apply lookup_fmap. }
  split; [exact Hget |]. split.
  - intros commandName e He. rewrite Hget in He.
    destruct (get m commandName) as [e0|]; [| done]. injection He as <-.
    split; [by destruct e0 |]. exists e0. by destruct e0.
  - intros e. split; [| by destruct e].
    rewrite register_get. by rewrite decide_True.
Qed.

(** X22. After [unregister(name)] the name is gone and the other entries are
    as before: [unregister] tells whether there was an entry, and dispatching
    the name afterwards fails with [Command not found]; after [clear()] every
    dispatch does. *)
Theorem unregister_then_dispatch (commandName : string) (m : CommandManager)
    (i : Interaction) (w : World) :
  let r := unregister commandName m in
  (r.1 = true ↔ is_Some (get m commandName))
  ∧ get r.2 commandName = None
  ∧ (∀ other, other ≠ commandName → get r.2 other = get m other)
  ∧ executeCommand r.2 commandName i w
    = (Throws (Error ("Command not found: " +:+ commandName)), w)
  ∧ (∀ anyName, executeCommand (clear m) anyName i w
                = (Throws (Error ("Command not found: " +:+ anyName)), w)).
Proof.
  cbv zeta. unfold unregister, has, get, executeCommand, clear. simpl.
  split; [apply bool_decide_eq_true |].
  split; [apply lookup_delete_eq |].
  split; [intros other Hne; by apply lookup_delete_ne |].
  split.
  - unfold get. simpl. by rewrite lookup_delete_eq.
  - intros anyName. unfold get. simpl. by rewrite lookup_empty.
Qed.

(** A group whose child has no logger, in a manager that is given one: the
    child's handler fails, and no error record is written anywhere; the only
    record is the group's, of an executed command. *)
Example injected_logger_misses_child_errors :
  let g' := {| g_name := "admin"; g_description := "Administration";
               g_subcommands := {[ "quiet" := with_no_logger ]};
               g_logger := None |} in
  let m := setLogger (TToolboxLogger DEFAULT_LEVELS) (register (AGroup g') empty_manager) in
  let i := {| i_id := "I6"; i_createdTimestamp := 0; i_userId := "U1";
              i_guildId := Some "G1"; i_subcommand := Some "quiet" |} in
  trace (executeCommand m "admin" i (world_at 1000 [])).2
  = [Reply "I6" {| p_content := Some "An unexpected error occurred.";
                   p_ephemeral := false; p_embeds := None;
                   p_components := None; p_files := None |};
     FetchReply "I6";
     Log "admin (quiet) command executed" "info" "quiet_EXECUTION" false].
Proof. vm_compute. reflexivity. Qed.

End ManagerExtra.

(** * The modal registry: what registration, removal and submission change *)

Module ModalExtra.
Import ModalManager ModalManagerSpec.

(** X23. [has] and [get] agree, and decide what [handleSubmit] does: [has]
    holds exactly when [get] finds a definition; when it does not hold,
    [handleSubmit] throws [Modal not found] and changes nothing; when it
    holds, the handler of the definition [get] finds is called and its
    exception, if any, is the one [handleSubmit] ends with. *)
Theorem has_get_handleSubmit (modals : gmap string Modal) (customId : string) :
  (has modals customId = true ↔ is_Some (get modals customId))
  ∧ (has modals customId = false →
     handleSubmit modals customId
     = (Throws (Error ("Modal not found: " +:+ customId)), modals))
  ∧ (has modals customId = true →
     ∃ modal, get modals customId = Some modal
              ∧ (∀ e, onSubmit modal customId = Throws e →
                      handleSubmit modals customId = (Throws e, modals))
              ∧ (onSubmit modal customId = Returns tt →
                 (handleSubmit modals customId).1 = Returns tt)).
Proof.
  assert (Hiff : has modals customId = true ↔ is_Some (get modals customId)).
  { unfold has, get. destruct (modals !! customId) as [modal|] eqn:Hex.
    - rewrite bool_decide_eq_true_2 by eauto. simpl. split; eauto.
    - rewrite (bool_decide_eq_false_2 (is_Some None)) by (by intros [? ?]). simpl.
      apply bool_decide_eq_true. }
  split; [exact Hiff |]. split.
  - intros Hno. apply handleSubmit_not_found.
    destruct (get modals customId) eqn:Hg; [| done].
    assert (has modals customId = true) by (apply Hiff; eauto). congruence.
  - intros [modal Hg]%Hiff. exists modal. split; [done |].
    unfold handleSubmit. rewrite Hg. split.
    + by intros e ->.
    + intros ->. by destruct (ephemeral modal).
Qed.

Lemma has_get_handleSubmit_witness :
  handleSubmit (buildAndRegister (edit_x false) ∅).2 "other:1"
  = (Throws (Error ("Modal not found: " +:+ "other:1")),
     (buildAndRegister (edit_x false) ∅).2).
Proof.
  destruct (has_get_handleSubmit (buildAndRegister (edit_x false) ∅).2 "other:1")
    as (_ & Hmiss & _).
  apply Hmiss. reflexivity.
Defined.

(** X24. Registration is a round trip and replaces on conflict: whatever the
    registry held, after [buildAndRegister(data)] the id of [data] resolves to
    [data]; the other keys are as before; the registry has grown by one entry
    if the id was new and not at all otherwise; and the dialog carries the id
    and the title, with one input per field, in order, required unless the
    field says otherwise. *)
Theorem buildAndRegister_round_trip (data : Modal) (modals : gmap string Modal) :
  let r := buildAndRegister data modals in
  get r.2 (id data) = Some data
  ∧ has r.2 (id data) = true
  ∧ (∀ other, other ≠ id data → r.2 !! other = modals !! other)
  ∧ size r.2 = (if decide (is_Some (modals !! id data))
                then size modals else S (size modals))
  ∧ b_customId r.1 = id data ∧ b_title r.1 = title data
  ∧ t_customId <$> b_rows r.1 = f_customId <$> fields data
  ∧ t_required <$> b_rows r.1 = (λ f, default true (f_required f)) <$> fields data.
Proof.
  cbv zeta. unfold buildAndRegister, get, has. simpl.
  rewrite lookup_insert_eq.
  split; [done |].
  split; [by rewrite bool_decide_eq_true_2 by eauto |].
  split; [intros other Hne; by rewrite lookup_insert_ne |].
  split.
  - case_decide as Hex.
    + destruct Hex as [old Hold]. rewrite <- (insert_delete_id modals (id data) old) at 2;
        [| done].
      rewrite <- insert_delete_eq.
      rewrite !map_size_insert_None by apply lookup_delete_eq. done.
    + apply map_size_insert_None. by apply eq_None_not_Some.
  - repeat split.
    + rewrite <- !list_fmap_compose. done.
    + rewrite <- !list_fmap_compose. done.
Qed.

(** X25. [remove(id)] deletes the exact key only: it tells whether the key
    was there, leaves every other key alone, and afterwards the id resolves
    through its prefix if it has one (so removing a suffixed id never
    unregisters the definition suffixed ids fall back to), and to nothing if
    it has none. *)
Theorem remove_exact_only (customId : string) (modals : gmap string Modal) :
  let r := remove customId modals in
  (r.1 = true ↔ is_Some (modals !! customId))
  ∧ r.2 !! customId = None
  ∧ (∀ other, other ≠ customId → r.2 !! other = modals !! other)
  ∧ get r.2 customId
    = (if decide (baseId customId = customId) then None else modals !! baseId customId)
  ∧ (modals !! customId = None → r.2 = modals).
Proof.
  cbv zeta. unfold remove, get. simpl.
  split; [apply bool_decide_eq_true |].
  split; [apply lookup_delete_eq |].
  split; [intros other Hne; by apply lookup_delete_ne |].
  split.
  - rewrite lookup_delete_eq. case_decide as Hbase.
    + rewrite Hbase. apply lookup_delete_eq.
    + by apply lookup_delete_ne.
  - apply delete_id.
Qed.

(** X26. A submission never adds to the registry nor replaces a definition:
    afterwards the registry is the same, or the same without the submitted
    id, and the latter only after a handler that returned; a submission
    that fails, for want of a definition or in the handler, leaves every
    definition in place, an ephemeral one too. *)
Theorem handleSubmit_registry (modals : gmap string Modal) (customId : string) :
  let r := handleSubmit modals customId in
  (r.2 = modals ∨ (r.2 = delete customId modals ∧ r.1 = Returns tt))
  ∧ (∀ e, r.1 = Throws e → r.2 = modals)
  ∧ (∀ key modal, r.2 !! key = Some modal → modals !! key = Some modal).
Proof.
  cbv zeta.
  assert (Hcases : (handleSubmit modals customId).2 = modals
                   ∨ (handleSubmit modals customId).2 = delete customId modals
                     ∧ (handleSubmit modals customId).1 = Returns tt).
  { unfold handleSubmit. destruct (get modals customId) as [modal|]; [| by left].
    destruct (onSubmit modal customId) as [[]|e]; [| by left].
    destruct (ephemeral modal); [right | left]; done. }
  split; [exact Hcases |]. split.
  - intros e He. destruct Hcases as [H | [_ H]]; [done | congruence].
  - intros key modal. destruct Hcases as [-> | [-> _]]; [done |].
    intros H. apply lookup_delete_Some in H. tauto.
Qed.

End ModalExtra.

(** * The paginated browser: strangers, sessions without handler, buttons *)

Module BrowserExtra.
Import PaginatedEmbed PaginatedEmbedSpec Embeds.

(** X27. Nobody but the owner can steer a session: a click of another user
    is answered with a refusal, the custom handler is not called for it, and
    the session is the same as if the click had never come; so the state
    after any sequence of inputs is the state after the owner's clicks, the
    timer and the stop calls alone. *)
Theorem strangers_cannot_steer {T : Type} (owner : string)
    (options : option (PaginatedEmbedOptions T)) (inputs : list Input) (s : Session T) :
  run owner options s inputs
  = run owner options s (List.filter (by_owner owner) inputs)
  ∧ (∀ userId action, userId ≠ owner → ended s = false →
       step owner options s (Click userId action) = (s, [Refused userId])).
Proof.
  split.
  - revert s. induction inputs as [|input inputs IH]; intros s; [done |].
    simpl. destruct (by_owner owner input) eqn:Hown; simpl; [apply IH |].
    destruct input as [userId action | |]; try done. simpl in Hown.
    assert (Hsame : (step owner options s (Click userId action)).1 = s).
    { unfold step, collect. destruct (ended s); [done |]. by rewrite Hown. }
    rewrite Hsame. apply IH.
  - intros userId action Hne Hlive. unfold step, collect. rewrite Hlive.
    apply String.eqb_neq in Hne. by rewrite Hne.
Qed.

Lemma strangers_cannot_steer_witness :
  step "U1" (Some delete_first) (start ["a"; "b"]) (Click "U2" "delete")
  = (start ["a"; "b"], [Refused "U2"]).
Proof.
  destruct (strangers_cannot_steer "U1" (Some delete_first) [] (start ["a"; "b"]))
    as [_ Hrefused].
  apply Hrefused; [discriminate | reflexivity].
Defined.

(** X28. Without a custom handler the items of a session never change, and
    the session ends by the timer or by [stop()] only: after any sequence of
    inputs the list is the one it started with, and the session has ended
    exactly when it had already, or the timer or a stop occurred. *)
Theorem without_handler_items_stay {T : Type} (owner : string)
    (options : option (PaginatedEmbedOptions T)) (inputs : list Input) (s : Session T) :
  options ≫= onCustomButton = None →
  items (run owner options s inputs) = items s
  ∧ ended (run owner options s inputs) = ended s || existsb ends inputs.
Proof.
  intros Hnone. revert s.
  induction inputs as [|input inputs IH]; intros s; simpl.
  - by rewrite orb_false_r.
  - destruct (IH (step owner options s input).1) as [Hitems Hended].
    rewrite Hitems, Hended.
    assert (Hstep : items (step owner options s input).1 = items s
                    ∧ ended (step owner options s input).1 = ended s || ends input).
    { unfold step. destruct (ended s) eqn:He; [simpl; by rewrite He |].
      destruct input as [userId action | |]; simpl; try done.
      unfold collect. rewrite Hnone.
      destruct (negb (String.eqb userId owner)); simpl; [by rewrite He |].
      unfold paginate.
      destruct (String.eqb action "prev"); [simpl; by rewrite He |].
      destruct (String.eqb action "next"); simpl; by rewrite He. }
    destruct Hstep as [-> ->]. by rewrite orb_assoc.
Qed.

Lemma without_handler_items_stay_witness :
  items (run "U1" None (start ["a"; "b"; "c"])
           [Click "U1" "next"; Click "U1" "reload"; Click "U1" "prev"])
  = ["a"; "b"; "c"].
Proof.
  apply (without_handler_items_stay "U1" None
           [Click "U1" "next"; Click "U1" "reload"; Click "U1" "prev"]
           (start ["a"; "b"; "c"])).
  reflexivity.
Defined.

(** X29. The buttons of a session match what a click does: the row is the
    [prev] button, the extra buttons in order, and the [next] button, with
    the ids the listener reacts to; and for a session whose index is a
    position of its list, [prev] is disabled exactly when a [prev] click would
    change nothing, and [next] exactly when a [next] click would change
    nothing. *)
Theorem buttons_match_pagination {T : Type} (extraButtons : option (list ButtonBuilder))
    (s : Session T) :
  in_range s →
  ∃ prev next,
    buildButtons extraButtons s = [[prev] ++ default [] extraButtons ++ [next]]
    ∧ bb_customId prev = "prev" ∧ bb_customId next = "next"
    ∧ (bb_disabled prev = true ↔ (paginate s "prev").1 = s)
    ∧ (bb_disabled next = true ↔ (paginate s "next").1 = s).
Proof.
  intros [Hne Hi]. pose proof (total_pos _ Hne) as Hpos.
  eexists _, _. split; [reflexivity |]. split; [reflexivity |]. split; [reflexivity |].
  simpl. split.
  - rewrite Z.eqb_eq. split.
    + intros H0. destruct s as [i l e]. simpl in *. subst i. reflexivity.
    + intros Hsame. apply (f_equal index) in Hsame. simpl in Hsame. lia.
  - rewrite Z.eqb_eq. split.
    + intros Hlast. destruct s as [i l e]. simpl in *. f_equal. lia.
    + intros Hsame. apply (f_equal index) in Hsame. simpl in Hsame. lia.
Qed.

Lemma buttons_match_pagination_witness :
  bb_disabled <$> concat (buildButtons None (start ["a"; "b"; "c"])) = [true; false].
Proof.
  destruct (buttons_match_pagination None (start ["a"; "b"; "c"]))
    as (prev & next & Hrow & _ & _ & Hprev & Hnext).
  - split; [discriminate | unfold total; simpl; lia].
  - rewrite Hrow. simpl. f_equal; [by apply Hprev |].
    f_equal. destruct (decide (bb_disabled next = true)) as [Hd | Hd].
    + apply Hnext in Hd. discriminate Hd.
    + by destruct (bb_disabled next).
Defined.

End BrowserExtra.

(** * The event handler base class: which listeners are set up *)

Module HandlerExtra.
Import Handler.

Lemma lookup_method_bound chain m n :
  lookup_method chain m = Some n → n < length chain.
Proof.
  induction chain as [|body ancestors IH]; simpl; [done |].
  destruct (body m); [intros [= <-]; lia |].
  intros H. apply IH in H. lia.
Qed.

(** X30. [setupOtherHandlers] sets up the listener of an event exactly when
    the class of the instance defines the handler itself: a handler the
    class only inherits from its parent is taken for not implemented. So a
    class that implements the five handlers gets the five listeners, in the
    order of the source, and a class derived from it that overrides nothing
    gets none. *)
Theorem setupOtherHandlers_own_methods (body : ClassBody) (ancestors : list ClassBody) :
  (∀ m, overridden (body :: ancestors) m = body m)
  ∧ (∀ m, event_of m ∈ setupOtherHandlers (body :: ancestors) ↔ body m = true)
  ∧ setupOtherHandlers (implements_all :: ancestors)
    = [MessageCreate; InteractionCreate; MessageReactionAdd; MessageReactionRemove;
       MessageDelete]
  ∧ setupOtherHandlers (overrides_nothing :: ancestors) = [].
Proof.
  assert (Hown : ∀ b m, overridden (b :: ancestors) m = b m).
  { intros b m. unfold overridden. simpl. destruct (b m).
    - rewrite bool_decide_eq_false_2; [done |].
      intros H. symmetry in H. apply lookup_method_bound in H. lia.
    - by rewrite bool_decide_eq_true_2. }
  split; [apply Hown |]. split; [| split].
  - intros m. unfold setupOtherHandlers. rewrite list_elem_of_fmap. split.
    + intros (m' & Hev & Hin). apply list_elem_of_In, filter_In in Hin as [_ Hov].
      rewrite Hown in Hov. by destruct m, m'.
    + intros Hb. exists m. split; [done |].
      apply list_elem_of_In, filter_In. split; [| by rewrite Hown].
      destruct m; simpl; tauto.
  - unfold setupOtherHandlers. simpl. by rewrite !Hown.
  - unfold setupOtherHandlers. simpl. by rewrite !Hown.
Qed.

End HandlerExtra.
